(** * ionize: mobility corrections and the equilibrium pH polynomial

    A shallow embedding of [ionize/Ion/mobility.py] and
    [ionize/Solution/calc_pH.py].

    Conventions of the embedding.
    - Python and numpy floating-point numbers are idealised as real numbers
      ([R]); products, quotients and powers are the real ones.  A division
      by zero has no counterpart (Python raises [ZeroDivisionError], numpy
      gives [inf] or [nan]): the quotient of the model is only meant where
      the divisor is not zero, and every statement about a function that
      divides carries that as a hypothesis (nonzero viscosity, positive
      absolute temperature and dielectric constant, nonzero valences and
      Faraday constant).  The functions of the [math] module that raise on
      a domain error ([math.sqrt], [math.log10]) are partial and raise
      [ValueError].
    - One-dimensional numpy arrays are lists, two-dimensional arrays are
      lists of rows.  In [mobility.py] an element-wise operation on two
      arrays is only meant for arrays of equal length (numpy broadcasts or
      raises [ValueError] otherwise): the statements carry the shapes as
      hypotheses ([wf_ion]).  In [calc_pH.py] the shapes are checked and
      the [ValueError] is part of the model.
    - Exceptions are values of [Exn]; [warnings.warn] appends to a log that
      is threaded through every call. *)

From Stdlib Require Import String Reals Lra Lia ZArith Bool List.
Import ListNotations.
Open Scope R_scope.

(** ** Exceptions, warnings and the evaluation monad *)

Inductive Exn : Type :=
| AttributeError
| RuntimeError (msg : string)
| ValueError
| IndexError.

Inductive result (A : Type) : Type :=
| Ok (a : A)
| Raise (e : Exn).
Arguments Ok {A} a.
Arguments Raise {A} e.

Definition rbind {A B} (r : result A) (f : A -> result B) : result B :=
  match r with
  | Ok a => f a
  | Raise e => Raise e
  end.

(** A computation returns the warnings it emitted and either its value or
    the exception that ended it. *)
Definition M (A : Type) : Type := (list string * result A)%type.

Definition ret {A} (a : A) : M A := ([], Ok a).
Definition raise {A} (e : Exn) : M A := ([], Raise e).
Definition warn (msg : string) : M unit := ([msg], Ok tt).
Definition lift {A} (r : result A) : M A := ([], r).

Definition bind {A B} (m : M A) (f : A -> M B) : M B :=
  match m with
  | (w, Ok a) => let (w', r) := f a in (w ++ w', r)
  | (w, Raise e) => (w, Raise e)
  end.

Declare Scope py_scope.
Delimit Scope py_scope with py.
Notation "x <- m ;; k" := (bind m (fun x => k))
  (at level 61, m at next level, right associativity) : py_scope.
Notation "m ;; k" := (bind m (fun _ => k))
  (at level 61, right associativity) : py_scope.
Open Scope py_scope.

Fixpoint mapM {A B} (f : A -> M B) (l : list A) : M (list B) :=
  match l with
  | [] => ret []
  | x :: l' => y <- f x ;; ys <- mapM f l' ;; ret (y :: ys)
  end.

Definition warnings_of {A} (m : M A) : list string := fst m.
Definition outcome {A} (m : M A) : result A := snd m.

(** The returned value, or [d] when the computation raises. *)
Definition value_of {A} (m : M A) (d : A) : A :=
  match snd m with
  | Ok a => a
  | Raise _ => d
  end.

(** ** Comparisons and [math] functions on floats *)

Definition Rltb (x y : R) : bool := if Rlt_dec x y then true else false.
Definition Reqb (x y : R) : bool := if Req_dec_T x y then true else false.

(** [math.sqrt]: "math domain error" on a negative argument. *)
Definition math_sqrt (x : R) : M R :=
  if Rltb x 0 then raise ValueError else ret (sqrt x).

(** [math.log10]: "math domain error" unless the argument is positive. *)
Definition log10 (x : R) : R := ln x / ln 10.
Definition math_log10 (x : R) : result R :=
  if Rltb 0 x then Ok (log10 x) else Raise ValueError.

(** ** numpy arrays *)

Definition vec : Type := list R.
Definition mat : Type := list (list R).

Fixpoint map2 {A B C} (f : A -> B -> C) (l : list A) (l' : list B) : list C :=
  match l, l' with
  | x :: t, y :: t' => f x y :: map2 f t t'
  | _, _ => []
  end.

Definition np_sum (v : vec) : R := fold_right Rplus 0 v.
Definition np_any (v : list bool) : bool := existsb (fun b => b) v.

(** [v[a:b]] for [0 <= a], [0 <= b]. *)
Definition slice {A} (a b : nat) (v : list A) : list A :=
  firstn (b - a) (skipn a v).

(** [np.sum(m, 1)]: the sums of the rows. *)
Definition np_sum_axis1 (m : mat) : vec := map np_sum m.

(** Row [i] of [np.identity(n)], and [np.identity(n)]. *)
Definition unit_row (n i : nat) : vec :=
  map (fun j => if Nat.eqb i j then 1 else 0) (seq 0 n).
Definition np_identity (n : nat) : mat := map (unit_row n) (seq 0 n).

(** [np.diag(v)] for a one-dimensional [v]. *)
Definition np_diag (v : vec) : mat :=
  map (fun i => map (fun j => if Nat.eqb i j then nth i v 0 else 0)
                    (seq 0 (length v)))
      (seq 0 (length v)).

Definition mat_add (a b : mat) : mat := map2 (map2 Rplus) a b.
Definition mat_sub (a b : mat) : mat := map2 (map2 Rminus) a b.
Definition mat_scale (c : R) (a : mat) : mat := map (map (Rmult c)) a.

(** [np.dot] of two vectors, of a matrix and a vector, and of a vector and
    a matrix. *)
Definition dot (u v : vec) : R := np_sum (map2 Rmult u v).
Definition np_dot_mv (m : mat) (v : vec) : vec := map (fun row => dot row v) m.
Definition np_dot_vm (n : nat) (c : vec) (m : mat) : vec :=
  fold_right (fun cr acc => map2 Rplus (map (Rmult (fst cr)) (snd cr)) acc)
             (repeat 0 n) (combine c m).

Definition mat_get (m : mat) (i j : nat) : R := nth j (nth i m []) 0.

(** A matrix with [r] rows of [c] entries. *)
Definition dims (m : mat) (r c : nat) : Prop :=
  length m = r /\ Forall (fun row => length row = c) m.

(** ** Mobility: the object model read by [mobility.py] *)

Module Mobility.

(** The attributes and methods of [Solvent], [Ion] and [Solution] that
    [mobility.py] reads are defined outside of it; they are the fields of
    these records. *)

Record Solvent : Type := mkSolvent {
  viscosity : R -> R;
  dielectric : R -> R
}.

Record Ion : Type := mkIon {
  ion_id : nat;                               (* identity of the object *)
  valence : list Z;
  reference_mobility : vec;
  reference_temperature : R;
  _nightingale_function : option (R -> R);
  nightingale_min : R;                        (* nightingale_data['min'] *)
  nightingale_max : R;                        (* nightingale_data['max'] *)
  (* ionization_fraction(pH, ionic_strength, temperature) *)
  ionization_fraction : R -> option R -> option R -> vec;
  _solvent : Solvent
}.

Record Solution : Type := mkSolution {
  ions : list Ion;
  concentration : Ion -> R;
  pH : R;
  ionic_strength : R;
  _hydroxide : Ion;
  _hydronium : Ion
}.

(** The names imported from [..constants]. *)
Record Constants : Type := mkConstants {
  pitts : R;
  kelvin : R -> R;
  faraday : R;
  elementary_charge : R;
  lpm3 : R;
  onsager_fuoss : vec
}.

(** What the context resolver supplies for an argument that is not given. *)
Record Ambient : Type := mkAmbient {
  amb_pH : R;
  amb_ionic_strength : R;
  amb_temperature : R
}.

(** [x in l] and [l.index(x)] compare ions by identity. *)
Definition ion_eqb (a b : Ion) : bool := Nat.eqb (ion_id a) (ion_id b).
Definition ion_in (x : Ion) (l : list Ion) : bool := existsb (ion_eqb x) l.

Fixpoint list_index (x : Ion) (l : list Ion) : result nat :=
  match l with
  | [] => Raise ValueError
  | y :: l' => if ion_eqb y x then Ok 0%nat
               else rbind (list_index x l') (fun i => Ok (S i))
  end.

(** The charge-state vectors of an ion have one entry per valence. *)
Definition wf_ion (i : Ion) : Prop :=
  length (reference_mobility i) = length (valence i) /\
  forall pH I T, length (ionization_fraction i pH I T) = length (valence i).

Definition np_sign (z : Z) : R := IZR (Z.sgn z).
Definition np_abs (z : Z) : R := IZR (Z.abs z).

Definition nightingale_warning : string :=
  "Temperature outside rangefor nightingale data.".
Definition fallback_warning : string :=
  "Insufficient information for Onsager-Fuoss correction to mobility. Returning the Robinson-Stokes approximation.".
Definition divergence_message : string :=
  "Onsager-Fuoss approximation diverges for non-mobile ions. ".

Section Model.

Variable K : Constants.
(** [ion.context()]: the solution the ion is embedded in, if any. *)
Variable context : Ion -> option Solution.
Variable ambient : Ion -> Ambient.

(** Modelled from the spec: [_resolve_context] is a method of the ion that
    is not part of [mobility.py].  The context resolver "supplies
    temperature, ionic strength, pH when not explicitly given": an argument
    that is given is kept, a missing one is taken from [ambient]. *)
Definition _resolve_context (self : Ion) (pH ionic_strength temperature : option R)
  : R * R * R :=
  (match pH with Some x => x | None => amb_pH (ambient self) end,
   match ionic_strength with
   | Some x => x | None => amb_ionic_strength (ambient self) end,
   match temperature with
   | Some x => x | None => amb_temperature (ambient self) end).

(** [absolute_mobility], lines 48-68. *)
Definition absolute_mobility (self : Ion) (temperature : option R) : M vec :=
  let '(_, _, temperature) := _resolve_context self None None temperature in
  match _nightingale_function self with
  | Some f =>
      let absolute_mobility :=
        map (fun z => f temperature * 10.35e-11 /
                      viscosity (_solvent self) temperature * IZR z)
            (valence self) in
      (if negb (Rltb (nightingale_min self) temperature &&
                Rltb temperature (nightingale_max self))
       then warn nightingale_warning else ret tt) ;;
      ret absolute_mobility
  | None =>
      ret (map (fun m => viscosity (_solvent self) (reference_temperature self) /
                         viscosity (_solvent self) temperature * m)
               (reference_mobility self))
  end.

(** [robinson_stokes_mobility], lines 71-99.  Meant for a nonzero
    viscosity, a nonzero [kelvin(T) * dielectric(T)] and an ion with one
    absolute mobility per valence. *)
Definition robinson_stokes_mobility (self : Ion)
    (ionic_strength temperature : option R) : M vec :=
  let '(_, ionic_strength, temperature) :=
    _resolve_context self None ionic_strength temperature in
  let dielectric := dielectric (_solvent self) temperature in
  let viscosity := viscosity (_solvent self) temperature in
  let alpha := 1.705 * Rpower (kelvin K temperature / dielectric) (-3 / 2) in
  s <- math_sqrt (kelvin K temperature * dielectric) ;;
  let beta := 4.275e-9 / s / viscosity in
  mobility <- absolute_mobility self (Some temperature) ;;
  sI <- math_sqrt ionic_strength ;;
  ret (map2 (fun m z => m - (alpha * m + beta * np_sign z) *
                            (sI / (1 + pitts K * sI)))
            mobility (valence self)).

(** *** [_interaction], lines 126-173 *)

(** Lines 133-137: the ensemble of ions the correction ranges over. *)
Definition ensemble (self : Solution) (ion : Ion) : list Ion :=
  let ions :=
    filter (fun ion_ => Rltb 0 (concentration self ion_)) (ions self) ++
    [_hydroxide self; _hydronium self] in
  if negb (ion_in ion ions) then ions ++ [ion] else ions.

(** Lines 138-144: the querying ion's range in the concatenated arrays. *)
Definition index_range (ions : list Ion) (ion : Ion) : result (nat * nat) :=
  rbind (list_index ion ions) (fun ion_index =>
    let start_index :=
      if negb (Nat.eqb ion_index 0)
      then length (concat (map valence (firstn ion_index ions)))
      else 0%nat in
    let end_index := (start_index + length (valence ion))%nat in
    Ok (start_index, end_index)).

(** Lines 146-147.  Meant for ions with one absolute mobility per valence,
    nonzero valences, a nonzero viscosity and a nonzero Faraday constant. *)
Definition omega_of (ions : list Ion) : M vec :=
  ms <- mapM (fun ion => m <- absolute_mobility ion None ;;
                         ret (map2 Rdiv m (map IZR (valence ion)))) ions ;;
  ret (map (fun x => x / faraday K) (concat ms)).

(** The array [omega] as a value, without the diagnostics of the calls. *)
Definition absolute_mobility_value (ion : Ion) : vec :=
  value_of (absolute_mobility ion None) [].
Definition omega_value (ions : list Ion) : vec :=
  map (fun x => x / faraday K)
      (concat (map (fun ion => map2 Rdiv (absolute_mobility_value ion)
                                         (map IZR (valence ion))) ions)).

(** Lines 153-158. *)
Definition valences_of (ions : list Ion) : vec :=
  map IZR (concat (map valence ions)).

Definition concentrations_of (self : Solution) (ions : list Ion) : vec :=
  concat (map (fun ion => map (Rmult (concentration self ion))
                              (ionization_fraction ion (pH self) None None))
              ions).

Definition potential_of (self : Solution) (ions : list Ion) : vec :=
  map2 (fun c z => c * z ^ 2 / (2 * ionic_strength self))
       (concentrations_of self ions) (valences_of ions).

(** Broadcasting: [row + col[:, np.newaxis]] and [row / m]. *)
Definition add_row_col (row col : vec) : mat :=
  map (fun c => map (fun x => x + c) row) col.
Definition div_row_mat (row : vec) (m : mat) : mat :=
  map (fun mrow => map2 Rdiv row mrow) m.

(** Lines 160-162. *)
Definition interaction_h (potential omega : vec) : mat :=
  div_row_mat (map2 Rmult potential omega) (add_row_col omega omega).
Definition interaction_d (h : mat) : mat := np_diag (np_sum_axis1 h).
Definition interaction_B (potential omega : vec) : mat :=
  let h := interaction_h potential omega in
  let d := interaction_d h in
  mat_sub (mat_scale 2 (mat_add h d)) (np_identity (length omega)).

(** Lines 165-166: the column [r[:, 0]]. *)
Definition seed (valences potential omega : vec) : vec :=
  map2 Rminus valences
       (map (Rdiv (np_sum (map2 Rmult valences potential) /
                   np_sum (map2 Rdiv potential omega))) omega).

(** Lines 168-169: the columns [r[:, 1]], ..., written one after the other
    from the column before. *)
Fixpoint relax (B : mat) (prev : vec) (steps : nat) : list vec :=
  match steps with
  | O => []
  | S steps' => let next := np_dot_mv B prev in next :: relax B next steps'
  end.

(** The array [r], kept by columns: [np.transpose(r)] is the list itself. *)
Definition r_columns (valences potential omega : vec) : list vec :=
  let r0 := seed valences potential omega in
  r0 :: relax (interaction_B potential omega) r0 5.

Definition _interaction (self : option Solution) (ion : Ion) : M vec :=
  match self with
  | None => raise AttributeError
  | Some self =>
      let ions := ensemble self ion in
      range <- lift (index_range ions ion) ;;
      let '(start_index, end_index) := range in
      omega <- omega_of ions ;;
      if np_any (map (fun o => Reqb o 0) omega)
      then raise (RuntimeError divergence_message)
      else
        let valences := valences_of ions in
        let potential := potential_of self ions in
        let r := r_columns valences potential omega in
        let factor := np_dot_vm (length omega) (onsager_fuoss K) r in
        ret (slice start_index end_index factor)
  end.

(** [onsager_fuoss_mobility], lines 102-123.  Meant for a nonzero
    viscosity, a nonzero [kelvin(T) * dielectric(T)] and arrays of one
    entry per valence. *)
Definition onsager_fuoss_mobility (self : Ion) : M vec :=
  let '(_, ionic_strength, temperature) :=
    _resolve_context self None None None in
  let dielectric := dielectric (_solvent self) temperature in
  let viscosity := viscosity (_solvent self) temperature in
  interaction <- _interaction (context self) self ;;
  let alpha := 1.971e6 * sqrt 2 /
               Rpower (kelvin K temperature * dielectric) (3 / 2) in
  s <- math_sqrt (kelvin K temperature * dielectric) ;;
  let beta := 28.98 * sqrt 2 * faraday K * elementary_charge K * lpm3 K /
              s / viscosity in
  mobility <- absolute_mobility self None ;;
  sI <- math_sqrt ionic_strength ;;
  ret (map2 (fun mi z => fst mi - (alpha * fst mi * snd mi * np_abs z +
                                   beta * np_sign z) *
                                  (sI / (1 + pitts K * sI)))
            (combine mobility interaction) (valence self)).

(** [try: ... except AttributeError: ...] followed by the rest of the body. *)
Definition except_AttributeError {A} (body handler : M A) : M A :=
  match body with
  | (w, Raise AttributeError) => let (w', r) := handler in (w ++ w', r)
  | m => m
  end.

(** [actual_mobility], lines 38-45. *)
Definition actual_mobility (self : Ion)
    (ionic_strength temperature : option R) : M vec :=
  except_AttributeError
    (onsager_fuoss_mobility self)
    (warn fallback_warning ;;
     robinson_stokes_mobility self ionic_strength temperature).

(** [mobility], lines 9-35.  Meant for one ionization fraction per actual
    mobility. *)
Definition mobility (self : Ion)
    (pH ionic_strength temperature : option R) : M R :=
  let '(pH, ionic_strength, temperature) :=
    _resolve_context self pH ionic_strength temperature in
  let ionization_fraction :=
    ionization_fraction self pH (Some ionic_strength) (Some temperature) in
  actual_mobility <- actual_mobility self (Some ionic_strength)
                                     (Some temperature) ;;
  ret (np_sum (map2 Rmult ionization_fraction actual_mobility)).

End Model.

End Mobility.

(** ** The equilibrium pH polynomial: [calc_pH.py] *)

Module CalcPH.

(** What [calc_pH] reads from the ions and from the solution [obj]. *)

Record Ion : Type := mkIon {
  z : list Z;                 (* the charge states *)
  L : R -> vec;               (* L(I): products of acidity coefficients *)
  z0 : list Z                 (* z0(): the charge states with 0 *)
}.

Record Solution : Type := mkSolution {
  ions : list Ion;
  concentrations : vec;
  Kw_eff : R -> R;
  (* obj._H.activity_coefficient *)
  H_activity_coefficient : R -> list Z -> vec
}.

(** The builtins [max] and [min]: [ValueError] on an empty sequence. *)
Definition py_max (l : list Z) : result Z :=
  match l with
  | [] => Raise ValueError
  | x :: l' => Ok (fold_left Z.max l' x)
  end.

Definition py_min (l : list Z) : result Z :=
  match l with
  | [] => Raise ValueError
  | x :: l' => Ok (fold_left Z.min l' x)
  end.

Fixpoint mapR {A B} (f : A -> result B) (l : list A) : result (list B) :=
  match l with
  | [] => Ok []
  | x :: l' => rbind (f x) (fun y => rbind (mapR f l') (fun ys => Ok (y :: ys)))
  end.

(** Shapes [(a,)] and [(b,)] broadcast when they agree or one of them is 1. *)
Definition np_add (a b : vec) : result vec :=
  if Nat.eqb (length a) (length b) then Ok (map2 Rplus a b)
  else if Nat.eqb (length a) 1 then Ok (map (Rplus (nth 0 a 0)) b)
  else if Nat.eqb (length b) 1 then Ok (map (fun x => x + nth 0 b 0) a)
  else Raise ValueError.

(** [row[0:k] = v]: the slice stops at the end of the row; [v] has the
    length of the slice or is a single value, else [ValueError]. *)
Definition assign_prefix (row : vec) (k : nat) (v : vec) : result vec :=
  let s := Nat.min k (length row) in
  if Nat.eqb (length v) s then Ok (v ++ skipn s row)
  else if Nat.eqb (length v) 1 then Ok (repeat (nth 0 v 0) s ++ skipn s row)
  else Raise ValueError.

(** Sum of two coefficient lists, the shorter one continued by zeros. *)
Fixpoint padd (a b : vec) : vec :=
  match a, b with
  | [], _ => b
  | _, [] => a
  | x :: a', y :: b' => (x + y) :: padd a' b'
  end.

(** The product of two polynomials given by their coefficients. *)
Fixpoint convolve (a b : vec) : vec :=
  match a with
  | [] => []
  | x :: a' => padd (map (Rmult x) b) (0 :: convolve a' b)
  end.

(** [numpy.convolve] (mode 'full'): [ValueError] on an empty operand. *)
Definition np_convolve (a b : vec) : result vec :=
  match a, b with
  | [], _ | _, [] => Raise ValueError
  | _, _ => Ok (convolve a b)
  end.

(** [acc = numpy.convolve(acc, row)] for every row in turn. *)
Fixpoint convolve_rows (acc : vec) (rows : mat) : result vec :=
  match rows with
  | [] => Ok acc
  | row :: rest =>
      rbind (np_convolve acc row) (fun acc' => convolve_rows acc' rest)
  end.

(** Storing a float in an integer array drops its fractional part.  The
    sum that is stored is the exact real one and the integers are not
    bounded: the value agrees with the code where the float sum is exact
    and inside the range of the array's integers. *)
Definition trunc (x : R) : R :=
  if Rltb x 0 then - IZR (Int_part (- x)) else IZR (Int_part x).

Definition zeros (n : nat) : vec := repeat 0 n.

(** [np.sum(m, 0)] for a matrix with [cols] columns. *)
Definition np_sum_axis0 (cols : nat) (m : mat) : vec :=
  fold_right (map2 Rplus) (zeros cols) m.

(** [m.shape[1]] for [m = numpy.array(rows, ndmin=2)]. *)
Definition shape1 (m : mat) : nat :=
  match m with
  | [] => 0%nat
  | row :: _ => length row
  end.

Fixpoint update_row (i : nat) (f : vec -> vec) (m : mat) : mat :=
  match m, i with
  | [], _ => []
  | row :: rest, O => f row :: rest
  | row :: rest, S i' => row :: update_row i' f rest
  end.

(** Value of the polynomial with coefficients in descending powers. *)
Definition polyval (p : vec) (x : R) : R :=
  fold_left (fun acc c => acc * x + c) p 0.

(** A complex number [r] as returned by [numpy.roots]; [r > 0] compares
    the real parts first and then the imaginary parts. *)
Definition complex : Type := (R * R)%type.
Definition positive_real (r : complex) : bool :=
  (Rltb 0 (fst r) || (Reqb (fst r) 0 && Rltb 0 (snd r))) && Reqb (snd r) 0.

(** The shapes [calc_pH] expects: every ion has distinct charge states,
    [L(I)] has one entry per charge state and one more, [z0()] has no more
    entries than that, and there is one concentration per ion. *)
Definition wf_charges (I : R) (i : Ion) : Prop :=
  z i <> [] /\ NoDup (z i) /\
  length (L i I) = S (length (z i)) /\
  (length (z0 i) <= S (length (z i)))%nat.

Definition wf_solution (obj : Solution) (I : R) : Prop :=
  ions obj <> [] /\
  Forall (wf_charges I) (ions obj) /\
  length (concentrations obj) = length (ions obj).

Section Model.

(** [numpy.roots] on coefficients in descending powers. *)
Variable np_roots : vec -> list complex.

(** Line 18. *)
Definition MaxCol (obj : Solution) : result Z :=
  rbind (mapR (fun i => rbind (py_max (z i)) (fun mx =>
                        rbind (py_min (z i)) (fun mn =>
                        Ok (mx - mn + 2)%Z))) (ions obj))
        py_max.

(** Lines 22-25. *)
Definition LMat (obj : Solution) (I : R) (MaxCol : Z) : result mat :=
  mapR (fun i => assign_prefix (zeros (Z.to_nat MaxCol))
                               (length (z i) + 1) (L i I))
       (ions obj).

(** Lines 28-34: [Q] as the rows of [numpy.array(Q, ndmin=2)]. *)
Definition Q_of (obj : Solution) (I : R) (LMat : mat) : result mat :=
  rbind (convolve_rows [1] LMat) (fun Q =>
  rbind (np_convolve Q [- Kw_eff obj I; 0; 1]) (fun Q =>
  Ok [Q])).

(** Lines 39-51: the row [Pi] of ion number [i]. *)
Definition P_row (obj : Solution) (LMat : mat) (i : nat) : result vec :=
  match nth_error (ions obj) i with
  | None => Raise IndexError
  | Some ion =>
      let z_list := z0 ion in
      rbind (assign_prefix (zeros (shape1 LMat)) (length z_list)
                           (map IZR z_list)) (fun tmp =>
      let Mmod := update_row i (fun row => map2 Rmult row tmp) LMat in
      rbind (convolve_rows [1] Mmod) (fun Pi =>
      np_convolve [0; 1] Pi))
  end.

(** Lines 37-53. *)
Definition PMat_of (obj : Solution) (LMat : mat) : result mat :=
  mapR (P_row obj LMat) (seq 0 (length (concentrations obj))).

(** Lines 56-58. *)
Definition P_of (obj : Solution) (PMat : mat) : vec :=
  np_sum_axis0 (shape1 PMat)
    (map2 (fun row c => map (fun x => x * c) row) PMat (concentrations obj)).

(** [P] and [Q] as they enter the padding step (line 60). *)
Definition unpadded (obj : Solution) (I : R) : result (vec * mat * nat) :=
  rbind (MaxCol obj) (fun MaxCol =>
  rbind (LMat obj I MaxCol) (fun LMat =>
  rbind (Q_of obj I LMat) (fun Q =>
  rbind (PMat_of obj LMat) (fun PMat =>
  Ok (P_of obj PMat, Q, shape1 PMat))))).

(** Lines 61-65; [[0]*SizeDiff] is empty for a negative [SizeDiff]. *)
Definition pad (P : vec) (Q : mat) (PMat_shape1 : nat) : vec * mat :=
  let SizeDiff := (Z.of_nat (shape1 Q) - Z.of_nat PMat_shape1)%Z in
  if (0 <? SizeDiff)%Z then (P ++ repeat 0 (Z.to_nat SizeDiff), Q)
  else if (SizeDiff <? 0)%Z then (P, Q ++ repeat [0] (Z.to_nat SizeDiff))
  else (P, Q).

Definition padded (obj : Solution) (I : R) : result (vec * mat) :=
  rbind (unpadded obj I) (fun '(P, Q, cols) => Ok (pad P Q cols)).

(** [poly[0:k] = numpy.add(poly[0:k], v)] on the integer array [poly]. *)
Definition add_into (poly : vec) (k : nat) (v : vec) : result vec :=
  rbind (np_add (firstn k poly) v) (fun s =>
  assign_prefix poly k (map trunc s)).

(** Lines 68-76: the coefficients handed to [numpy.roots].  [poly] is an
    array of integers, [len(Q)] is the number of rows of [Q], and [Q] has
    the single row made at line 34.  The entries are those of the code
    where [trunc] agrees with it. *)
Definition combined_polynomial (obj : Solution) (I : R) : result vec :=
  rbind (padded obj I) (fun '(P, Q) =>
  let poly := zeros (Nat.max (length P) (length Q)) in
  rbind (add_into poly (length P + 1) P) (fun poly =>
  match Q with
  | [Qrow] =>
      rbind (add_into poly (length Qrow + 1) Qrow) (fun poly =>
      Ok (rev poly))
  | _ => Raise ValueError
  end)).

(** [calc_pH], lines 5-83. *)
Definition calc_pH (obj : Solution) (I : R) : result R :=
  rbind (combined_polynomial obj I) (fun poly =>
  let roo := np_roots poly in
  match filter positive_real roo with
  | [] => Raise IndexError
  | r :: _ =>
      let cH := fst r in
      match H_activity_coefficient obj I [1%Z] with
      | [] => Raise IndexError
      | gamma :: _ => rbind (math_log10 (cH * gamma)) (fun l => Ok (- l))
      end
  end).

End Model.

End CalcPH.

(** ** Notions used to state properties of the arrays *)

(** [np.max(np.abs(v))], 0 for an empty array. *)
Definition max_abs (v : vec) : R :=
  fold_right (fun a m => Rmax (Rabs a) m) 0 v.

(** Value at [x] of the polynomial with coefficients [p] in ascending
    powers, the order in which [calc_pH] builds [P] and [Q]. *)
Definition peval (p : vec) (x : R) : R :=
  fold_right (fun c acc => c + x * acc) 0 p.

Definition product (v : vec) : R := fold_right Rmult 1 v.

(** The charge-weighted term of ion number [k] at [x]: the polynomial of
    its charges times its [L(I)], entry by entry, times the polynomials
    [L(I)] of the other ions. *)
Definition charge_term (obj : CalcPH.Solution) (I x : R) (k : nat) : R :=
  match nth_error (CalcPH.ions obj) k with
  | Some ion =>
      product (map (fun j => peval (CalcPH.L j I) x)
                   (firstn k (CalcPH.ions obj))) *
      peval (map2 Rmult (CalcPH.L ion I) (map IZR (CalcPH.z0 ion))) x *
      product (map (fun j => peval (CalcPH.L j I) x)
                   (skipn (S k) (CalcPH.ions obj)))
  | None => 0
  end.

(** An array whose entries are integers. *)
Definition integer_valued (v : vec) : Prop :=
  Forall (fun c => exists k : Z, c = IZR k) v.

(** ** Concrete ions and solutions used to exercise the definitions *)

Module Examples.

Import Mobility.

Definition constants : Constants :=
  mkConstants 1.5 (fun T => T + 273.15) 96485 1.602e-19 1000
              [0.2929; -0.3536; 0.0884; -0.0442; 0.0276; -0.0193].

Definition water : Solvent := mkSolvent (fun _ => 1) (fun _ => 78).

Definition hydroxide : Ion :=
  mkIon 0 [-1]%Z [-205e-9] 25 None 0 0 (fun _ _ _ => [1]) water.
Definition hydronium : Ion :=
  mkIon 1 [1]%Z [362e-9] 25 None 0 0 (fun _ _ _ => [1]) water.
(** A weak acid, half ionised at the pH of the solution. *)
Definition acid : Ion :=
  mkIon 2 [-1]%Z [-42e-9] 25 None 0 0 (fun _ _ _ => [1 / 2]) water.
(** An ion that is listed in the solution with concentration 0. *)
Definition absent : Ion :=
  mkIon 3 [1]%Z [50e-9] 25 None 0 0 (fun _ _ _ => [1]) water.
(** A charge state that does not move. *)
Definition stuck : Ion :=
  mkIon 4 [2]%Z [0] 25 None 0 0 (fun _ _ _ => [1]) water.
(** An ion calibrated by a Nightingale fit, valid between 5 and 95. *)
Definition fitted : Ion :=
  mkIon 5 [1]%Z [70e-9] 25 (Some (fun T => 1 + T / 100)) 5 95
        (fun _ _ _ => [1]) water.

Definition conc_by_id (c0 c1 c2 c3 c4 : R) (i : Ion) : R :=
  match ion_id i with
  | 0%nat => c0 | 1%nat => c1 | 2%nat => c2 | 3%nat => c3 | 4%nat => c4
  | _ => 0
  end.

Definition buffer : Solution :=
  mkSolution [absent; acid] (conc_by_id 1e-7 1e-7 0.02 0 0) 7 0.01
             hydroxide hydronium.

Definition sludge : Solution :=
  mkSolution [stuck; acid] (conc_by_id 1e-7 1e-7 0.02 0 0.01) 7 0.01
             hydroxide hydronium.

Definition in_buffer (i : Ion) : option Solution :=
  if Nat.eqb (ion_id i) 5 then None else Some buffer.
Definition in_sludge (i : Ion) : option Solution :=
  if Nat.eqb (ion_id i) 5 then None else Some sludge.
Definition room (_ : Ion) : Ambient := mkAmbient 7 0.01 25.

End Examples.

Module PHExamples.

Import CalcPH.

(** Water alone: no ions, [Kw_eff(0) = 1e-14]. *)
Definition pure_water : Solution :=
  mkSolution [] [] (fun _ => 1e-14) (fun _ _ => [1]).

Definition monoprotic : Ion := mkIon [-1]%Z (fun _ => [1; 1]) [-1; 0]%Z.
Definition diprotic : Ion :=
  mkIon [-2; -1]%Z (fun _ => [1; 2; 1]) [-2; -1; 0]%Z.
Definition ampholyte : Ion :=
  mkIon [-1; 1]%Z (fun _ => [3; 1; 1]) [-1; 0; 1]%Z.

Definition one_ion : Solution :=
  mkSolution [monoprotic] [2] (fun _ => 0) (fun _ _ => [1]).
Definition two_ions : Solution :=
  mkSolution [monoprotic; diprotic] [2; 1] (fun _ => 1e-14) (fun _ _ => [1]).
Definition three_ions : Solution :=
  mkSolution [monoprotic; diprotic; ampholyte] [2; 1; 3]
             (fun _ => 1e-14) (fun _ _ => [1]).

(** The roots of [x^3 + x^2 - 2x]. *)
Definition roots_of_one_ion (_ : vec) : list complex :=
  [(-2, 0); (0, 0); (1, 0)].

End PHExamples.

Module MoreExamples.

Import Mobility.

(** A resolver that supplies a negative ionic strength. *)
Definition odd_room (_ : Ion) : Ambient := mkAmbient 7 (-1) 25.



End MoreExamples.

Module MorePHExamples.

Import CalcPH PHExamples.

(** One ion, two concentrations. *)
Definition overfull : Solution :=
  mkSolution [monoprotic] [2; 1] (fun _ => 1e-14) (fun _ _ => [1]).

(** An acid with [L(I) = [1/2, 1]] at concentration 1, [Kw_eff(0) = 0]:
    [P + Q] is [x^3 + x^2/2 - x/2]. *)
Definition half_protic : Ion := mkIon [-1]%Z (fun _ => [1 / 2; 1]) [-1; 0]%Z.
Definition half_acid : Solution :=
  mkSolution [half_protic] [1] (fun _ => 0) (fun _ _ => [1]).

(** The roots of [x^3]. *)
Definition roots_of_cube (_ : vec) : list complex :=
  [(0, 0); (0, 0); (0, 0)].

End MorePHExamples.

(** * Properties *)

(** ** The monad and the float comparisons *)

Lemma Rltb_true (x y : R) : x < y -> Rltb x y = true.
Proof. intros H. unfold Rltb. destruct (Rlt_dec x y); [reflexivity | contradiction]. Qed.

Lemma Rltb_false (x y : R) : ~ x < y -> Rltb x y = false.
Proof. intros H. unfold Rltb. destruct (Rlt_dec x y); [contradiction | reflexivity]. Qed.

Lemma Rltb_spec (x y : R) : Rltb x y = true <-> x < y.
Proof.
  unfold Rltb. destruct (Rlt_dec x y); split; intros; try assumption;
    try reflexivity; try discriminate; contradiction.
Qed.

Lemma Reqb_true (x y : R) : x = y -> Reqb x y = true.
Proof. intros H. unfold Reqb. destruct (Req_dec_T x y); [reflexivity | contradiction]. Qed.

Lemma Reqb_false (x y : R) : x <> y -> Reqb x y = false.
Proof. intros H. unfold Reqb. destruct (Req_dec_T x y); [contradiction | reflexivity]. Qed.

Lemma Reqb_spec (x y : R) : Reqb x y = true <-> x = y.
Proof.
  unfold Reqb. destruct (Req_dec_T x y); split; intros; try assumption;
    try reflexivity; try discriminate; contradiction.
Qed.

Lemma math_sqrt_ok (x : R) : 0 <= x -> math_sqrt x = ret (sqrt x).
Proof. intros H. unfold math_sqrt. rewrite Rltb_false by lra. reflexivity. Qed.

Lemma math_sqrt_neg (x : R) : x < 0 -> math_sqrt x = raise ValueError.
Proof. intros H. unfold math_sqrt. rewrite Rltb_true by lra. reflexivity. Qed.

Lemma math_sqrt_cases (x : R) :
  math_sqrt x = ret (sqrt x) \/ math_sqrt x = raise ValueError.
Proof. unfold math_sqrt. destruct (Rltb x 0); [right | left]; reflexivity. Qed.

Lemma bind_ret_l {A B} (a : A) (f : A -> M B) : bind (ret a) f = f a.
Proof. unfold bind, ret. destruct (f a). reflexivity. Qed.

Lemma bind_ok {A B} (w : list string) (a : A) (f : A -> M B) :
  bind (w, Ok a) f = (w ++ fst (f a), snd (f a)).
Proof. unfold bind. destruct (f a). reflexivity. Qed.

Lemma bind_raise {A B} (w : list string) (e : Exn) (f : A -> M B) :
  bind (w, Raise e) f = (w, Raise e).
Proof. reflexivity. Qed.

Lemma map2_length {A B C} (f : A -> B -> C) (l : list A) (l' : list B) :
  length (map2 f l l') = Nat.min (length l) (length l').
Proof.
  revert l'. induction l as [|x l IH]; intros [|y l']; simpl; try reflexivity.
  now rewrite IH.
Qed.

Lemma map2_fst {A B} (f : A -> B -> A) (l : list A) (l' : list B) :
  (forall a b, f a b = a) -> length l = length l' -> map2 f l l' = l.
Proof.
  intros Hf. revert l'. induction l as [|x l IH]; intros [|y l'] Hlen;
    simpl in *; try reflexivity; try discriminate.
  rewrite Hf, IH by lia. reflexivity.
Qed.

(** ** Mobility *)

Section MobilityFacts.

Import Mobility.

Variable K : Constants.
Variable context : Ion -> option Solution.
Variable ambient : Ion -> Ambient.

Local Abbreviation absolute_mobility := (absolute_mobility ambient).
Local Abbreviation robinson_stokes_mobility := (robinson_stokes_mobility K ambient).
Local Abbreviation onsager_fuoss_mobility := (onsager_fuoss_mobility K context ambient).
Local Abbreviation actual_mobility := (actual_mobility K context ambient).
Local Abbreviation _interaction := (_interaction K ambient).
Local Abbreviation omega_of := (omega_of K ambient).

(** The value [absolute_mobility] computes at a resolved temperature. *)
Lemma absolute_mobility_outcome (self : Ion) (T : option R) :
  exists v, outcome (absolute_mobility self T) = Ok v /\
            (length (reference_mobility self) = length (valence self) ->
             length v = length (valence self)).
Proof.
  unfold Mobility.absolute_mobility, _resolve_context.
  destruct (_nightingale_function self) as [f|].
  - eexists. split.
    + destruct (negb _); reflexivity.
    + intros _. now rewrite length_map.
  - eexists. split; [reflexivity|]. intros H. now rewrite length_map.
Qed.

(** C8: at ionic strength 0 the Robinson-Stokes correction term vanishes,
    so [robinson_stokes_mobility(0, T)] is [absolute_mobility(T)] (same
    value, same diagnostics), for a well-formed ion at a temperature where
    the absolute temperature and the dielectric constant are positive. *)
Theorem robinson_stokes_zero_ionic_strength (self : Ion) (T : R) :
  length (reference_mobility self) = length (valence self) ->
  0 < kelvin K T ->
  0 < dielectric (_solvent self) T ->
  robinson_stokes_mobility self (Some 0) (Some T) =
  absolute_mobility self (Some T).
Proof.
  intros Hwf Hk Hd.
  unfold Mobility.robinson_stokes_mobility, _resolve_context.
  rewrite math_sqrt_ok by (apply Rlt_le, Rmult_lt_0_compat; assumption).
  rewrite bind_ret_l.
  destruct (absolute_mobility_outcome self (Some T)) as (v & Hv & Hlen).
  specialize (Hlen Hwf).
  destruct (absolute_mobility self (Some T)) as [w r]. simpl in Hv. subst r.
  rewrite bind_ok. rewrite math_sqrt_ok by lra. rewrite bind_ret_l.
  simpl. rewrite app_nil_r.
  apply (f_equal (fun x => (w, Ok x))).
  apply map2_fst; [|assumption].
  intros a b. rewrite sqrt_0. unfold Rdiv. rewrite Rmult_0_l, Rmult_0_r. lra.
Qed.

(** C9 (as the code has it): with a Nightingale calibration the returned
    value is always [f(T) * 10.35e-11 / viscosity(T) * valence]; the
    diagnostic is emitted exactly when [min < T < max] fails, that is when
    [T <= min] or [max <= T], the two end points included. *)
Theorem absolute_mobility_nightingale (self : Ion) (f : R -> R) (T : R) :
  _nightingale_function self = Some f ->
  outcome (absolute_mobility self (Some T)) =
    Ok (map (fun z => f T * 10.35e-11 / viscosity (_solvent self) T * IZR z)
            (valence self)) /\
  (T <= nightingale_min self \/ nightingale_max self <= T ->
   warnings_of (absolute_mobility self (Some T)) = [nightingale_warning]) /\
  (nightingale_min self < T < nightingale_max self ->
   warnings_of (absolute_mobility self (Some T)) = []).
Proof.
  intros Hf. unfold Mobility.absolute_mobility, _resolve_context. rewrite Hf.
  split; [|split].
  - destruct (negb _); reflexivity.
  - intros Hout.
    assert (Hb : Rltb (nightingale_min self) T &&
                 Rltb T (nightingale_max self) = false).
    { apply andb_false_iff. destruct Hout as [H|H].
      - left. apply Rltb_false. lra.
      - right. apply Rltb_false. lra. }
    rewrite Hb. reflexivity.
  - intros [H1 H2]. rewrite (Rltb_true _ _ H1), (Rltb_true _ _ H2). reflexivity.
Qed.

(** Without an enclosing solution the Onsager-Fuoss path ends in
    [AttributeError] before anything is logged. *)
Lemma onsager_fuoss_no_context (self : Ion) :
  context self = None ->
  onsager_fuoss_mobility self = ([], Raise AttributeError).
Proof.
  intros H. unfold Mobility.onsager_fuoss_mobility, _resolve_context.
  rewrite H. reflexivity.
Qed.

(** Inside its domain the Robinson-Stokes estimate returns a value. *)
Lemma robinson_stokes_returns (self : Ion) (I T : option R) :
  let '(_, I', T') := _resolve_context ambient self None I T in
  length (reference_mobility self) = length (valence self) ->
  0 <= I' -> 0 < kelvin K T' -> 0 < dielectric (_solvent self) T' ->
  exists v, outcome (robinson_stokes_mobility self I T) = Ok v /\
            length v = length (valence self).
Proof.
  unfold Mobility.robinson_stokes_mobility, _resolve_context.
  intros Hwf HI Hk Hd.
  rewrite math_sqrt_ok by (apply Rlt_le, Rmult_lt_0_compat; assumption).
  rewrite bind_ret_l.
  match goal with |- context [Mobility.absolute_mobility _ _ ?t] =>
    destruct (absolute_mobility_outcome self t) as (v & Hv & Hlen);
    destruct (absolute_mobility self t) as [w r] end.
  specialize (Hlen Hwf).
  simpl in Hv. subst r. rewrite bind_ok, math_sqrt_ok by assumption.
  rewrite bind_ret_l. eexists. split; [reflexivity|].
  rewrite map2_length. lia.
Qed.

(** C6: for an ion without an enclosing solution, [actual_mobility(I, T)]
    emits the fallback diagnostic and then is [robinson_stokes_mobility(I,
    T)]: same value, the diagnostic put before those of the estimate; and
    it returns a value, one entry per valence, whenever the ion has one
    reference mobility per valence, the resolved ionic strength is not
    negative, the absolute temperature and dielectric are positive, the
    viscosity is not zero and [pitts] is not negative. *)
Theorem actual_mobility_fallback (self : Ion) (I T : option R) :
  context self = None ->
  actual_mobility self I T =
    (fallback_warning :: warnings_of (robinson_stokes_mobility self I T),
     outcome (robinson_stokes_mobility self I T)) /\
  (let '(_, I', T') := _resolve_context ambient self None I T in
   length (reference_mobility self) = length (valence self) ->
   0 <= I' -> 0 < kelvin K T' -> 0 < dielectric (_solvent self) T' ->
   viscosity (_solvent self) T' <> 0 -> 0 <= pitts K ->
   exists v, outcome (actual_mobility self I T) = Ok v /\
             outcome (robinson_stokes_mobility self I T) = Ok v /\
             length v = length (valence self)).
Proof.
  intros Hctx.
  assert (Heq : actual_mobility self I T =
    (fallback_warning :: warnings_of (robinson_stokes_mobility self I T),
     outcome (robinson_stokes_mobility self I T))).
  { unfold Mobility.actual_mobility, except_AttributeError.
    rewrite (onsager_fuoss_no_context self Hctx).
    unfold warn. rewrite bind_ok. reflexivity. }
  split; [exact Heq|].
  pose proof (robinson_stokes_returns self I T) as Hret.
  unfold _resolve_context in *. intros Hwf HI Hk Hd _ _.
  destruct (Hret Hwf HI Hk Hd) as (v & Hv & Hlen). exists v.
  split; [|split; [exact Hv | exact Hlen]].
  rewrite Heq. exact Hv.
Qed.

(** C10: when the Onsager-Fuoss path returns, [actual_mobility] is that
    result whatever its two arguments are. *)
Theorem actual_mobility_ignores_arguments (self : Ion) (v : vec) :
  outcome (onsager_fuoss_mobility self) = Ok v ->
  forall I T I' T' : option R,
    actual_mobility self I T = actual_mobility self I' T' /\
    actual_mobility self I T = onsager_fuoss_mobility self.
Proof.
  intros Hv I T I' T'.
  unfold Mobility.actual_mobility, except_AttributeError.
  destruct (onsager_fuoss_mobility self) as [w r]. simpl in Hv. subst r.
  split; reflexivity.
Qed.

(** *** The ensemble and the index range *)

Lemma ion_eqb_sym (a b : Ion) : ion_eqb a b = ion_eqb b a.
Proof. unfold ion_eqb. apply Nat.eqb_sym. Qed.

Lemma ion_eqb_refl (a : Ion) : ion_eqb a a = true.
Proof. unfold ion_eqb. apply Nat.eqb_refl. Qed.

Lemma list_index_found (x : Ion) (l : list Ion) :
  ion_in x l = true -> exists i, list_index x l = Ok i /\ (i < length l)%nat.
Proof.
  induction l as [|y l IH]; simpl; [discriminate|].
  rewrite (ion_eqb_sym x y). destruct (ion_eqb y x) eqn:E; simpl.
  - intros _. exists 0%nat. split; [reflexivity | lia].
  - intros H. destruct (IH H) as (i & Hi & Hlt). exists (S i).
    rewrite Hi. split; [reflexivity | lia].
Qed.

Lemma ion_in_app (x : Ion) (l l' : list Ion) :
  ion_in x (l ++ l') = ion_in x l || ion_in x l'.
Proof. unfold ion_in. apply existsb_app. Qed.

Lemma ensemble_unfold (sol : Solution) (ion : Ion) :
  let base := filter (fun i => Rltb 0 (concentration sol i)) (ions sol) ++
              [_hydroxide sol; _hydronium sol] in
  ensemble sol ion = base ++ (if ion_in ion base then [] else [ion]).
Proof.
  simpl. unfold ensemble. destruct (ion_in ion _); simpl.
  - now rewrite app_nil_r.
  - reflexivity.
Qed.

Lemma ensemble_has_ion (sol : Solution) (ion : Ion) :
  ion_in ion (ensemble sol ion) = true.
Proof.
  rewrite ensemble_unfold.
  destruct (ion_in ion (filter _ (ions sol) ++ _)) eqn:E.
  - now rewrite app_nil_r.
  - rewrite ion_in_app. simpl. rewrite ion_eqb_refl. apply orb_true_iff.
    right. reflexivity.
Qed.

Lemma index_range_found (l : list Ion) (ion : Ion) (ion_index : nat) :
  list_index ion l = Ok ion_index ->
  index_range l ion =
    Ok (list_sum (map (fun i => length (valence i)) (firstn ion_index l)),
        (list_sum (map (fun i => length (valence i)) (firstn ion_index l)) +
         length (valence ion))%nat).
Proof.
  intros H. unfold index_range. rewrite H. simpl.
  destruct ion_index as [|i]; simpl negb; cbv iota.
  - reflexivity.
  - rewrite length_concat, map_map. reflexivity.
Qed.



(** *** The array [omega] and the divergence error *)

Lemma mapM_ok {A B} (f : A -> M B) (g : A -> B) (P : string -> Prop)
    (l : list A) :
  (forall x, outcome (f x) = Ok (g x) /\ Forall P (warnings_of (f x))) ->
  exists w, mapM f l = (w, Ok (map g l)) /\ Forall P w.
Proof.
  intros Hf. induction l as [|x l (w & IH & HP)]; simpl.
  - exists []. split; [reflexivity | constructor].
  - destruct (Hf x) as [Hx HPx]. destruct (f x) as [wx rx].
    simpl in Hx, HPx. subst rx. rewrite bind_ok, IH, bind_ok. simpl.
    eexists. split; [reflexivity|].
    rewrite app_nil_r. apply Forall_app. split; assumption.
Qed.

Lemma absolute_mobility_split (self : Ion) (T : option R) :
  outcome (absolute_mobility self T) =
    Ok (value_of (absolute_mobility self T) []) /\
  Forall (eq nightingale_warning) (warnings_of (absolute_mobility self T)).
Proof.
  unfold Mobility.absolute_mobility, _resolve_context, value_of.
  destruct (_nightingale_function self) as [f|].
  - destruct (negb _); simpl; split; try reflexivity; repeat constructor.
  - simpl. split; [reflexivity | constructor].
Qed.

Lemma omega_of_value (l : list Ion) :
  exists w, omega_of l = (w, Ok (omega_value K ambient l)) /\
            Forall (eq nightingale_warning) w.
Proof.
  unfold Mobility.omega_of, omega_value.
  destruct (mapM_ok
    (fun ion => m <- absolute_mobility ion None ;;
                ret (map2 Rdiv m (map IZR (valence ion))))
    (fun ion => map2 Rdiv (absolute_mobility_value ambient ion)
                          (map IZR (valence ion)))
    (eq nightingale_warning) l) as (w & Hw & HP).
  { intros x. destruct (absolute_mobility_split x None) as [Hv HPx].
    unfold absolute_mobility_value.
    destruct (absolute_mobility x None) as [wx [a|e]]; [|discriminate].
    rewrite bind_ok. simpl. rewrite app_nil_r.
    split; [reflexivity | exact HPx]. }
  rewrite Hw, bind_ok. simpl. rewrite app_nil_r.
  exists w. split; [reflexivity | exact HP].
Qed.

Lemma nth_error_map2 {A B C} (f : A -> B -> C) (l : list A) (l' : list B)
    (k : nat) (a : A) (b : B) :
  nth_error l k = Some a -> nth_error l' k = Some b ->
  nth_error (map2 f l l') k = Some (f a b).
Proof.
  revert l l'. induction k as [|k IH]; intros [|x l] [|y l']; simpl;
    try discriminate.
  - intros [= ->] [= ->]. reflexivity.
  - apply IH.
Qed.

Lemma omega_value_zero (l : list Ion) (ion' : Ion) (k : nat) (zk : Z) :
  In ion' l ->
  nth_error (absolute_mobility_value ambient ion') k = Some 0 ->
  nth_error (valence ion') k = Some zk ->
  In 0 (omega_value K ambient l).
Proof.
  intros Hin Hm Hz. unfold omega_value.
  apply in_map_iff. exists 0. split; [unfold Rdiv; apply Rmult_0_l|].
  apply in_concat. eexists. split.
  - apply in_map_iff. exists ion'. split; [reflexivity | exact Hin].
  - apply nth_error_In with k.
    rewrite (nth_error_map2 Rdiv _ _ k 0 (IZR zk) Hm).
    + f_equal. unfold Rdiv. apply Rmult_0_l.
    + now rewrite nth_error_map, Hz.
Qed.

Lemma np_any_zero (omega : vec) :
  In 0 omega -> np_any (map (fun o => Reqb o 0) omega) = true.
Proof.
  intros H. unfold np_any. apply existsb_exists. exists true.
  split; [|reflexivity]. apply in_map_iff. exists 0.
  split; [now apply Reqb_true | exact H].
Qed.

Lemma warnings_differ : nightingale_warning <> fallback_warning.
Proof. discriminate. Qed.

End MobilityFacts.

(** ** The interaction matrix and the relaxation series *)

Lemma nth_map_lt {A B} (f : A -> B) (l : list A) (i : nat) (d : A) (d' : B) :
  (i < length l)%nat -> nth i (map f l) d' = f (nth i l d).
Proof.
  intros H. rewrite (nth_indep _ d' (f d)) by now rewrite length_map.
  apply map_nth.
Qed.

Lemma nth_map2 {A B C} (f : A -> B -> C) (l : list A) (l' : list B)
    (i : nat) (a : A) (b : B) (c : C) :
  (i < length l)%nat -> (i < length l')%nat ->
  nth i (map2 f l l') c = f (nth i l a) (nth i l' b).
Proof.
  revert l l'. induction i as [|i IH]; intros [|x l] [|y l']; simpl;
    intros H H'; try lia; [reflexivity|]. apply IH; lia.
Qed.

Lemma nth_map_seq {B} (f : nat -> B) (n i : nat) (d : B) :
  (i < n)%nat -> nth i (map f (seq 0 n)) d = f i.
Proof.
  intros H. rewrite (nth_map_lt f _ i 0%nat) by now rewrite length_seq.
  now rewrite seq_nth.
Qed.

Lemma dims_row (m : mat) (r c i : nat) :
  dims m r c -> (i < r)%nat -> length (nth i m []) = c.
Proof.
  intros [Hr Hc] Hi. rewrite Forall_forall in Hc. apply Hc, nth_In. lia.
Qed.

Lemma dims_map2 (f : R -> R -> R) (a b : mat) (r c : nat) :
  dims a r c -> dims b r c -> dims (map2 (map2 f) a b) r c.
Proof.
  intros [Ha Fa] [Hb Fb]. split.
  - rewrite map2_length. lia.
  - clear Ha Hb. revert b Fb. induction Fa as [|x a Hx Fa IH];
      intros [|y b] Fb; simpl; try constructor.
    + inversion Fb; subst. rewrite map2_length. lia.
    + inversion Fb; subst. now apply IH.
Qed.

Lemma dims_scale (k : R) (a : mat) (r c : nat) :
  dims a r c -> dims (mat_scale k a) r c.
Proof.
  intros [Ha Fa]. split; unfold mat_scale.
  - now rewrite length_map.
  - apply Forall_map. eapply Forall_impl; [|exact Fa].
    intros row H. now rewrite length_map.
Qed.

Lemma dims_identity (n : nat) : dims (np_identity n) n n.
Proof.
  split; unfold np_identity.
  - now rewrite length_map, length_seq.
  - apply Forall_map, Forall_forall. intros i _. unfold unit_row.
    now rewrite length_map, length_seq.
Qed.

Lemma dims_diag (v : vec) : dims (np_diag v) (length v) (length v).
Proof.
  split; unfold np_diag.
  - now rewrite length_map, length_seq.
  - apply Forall_map, Forall_forall. intros i _.
    now rewrite length_map, length_seq.
Qed.

Lemma mat_get_map2 (f : R -> R -> R) (a b : mat) (r c i j : nat) :
  dims a r c -> dims b r c -> (i < r)%nat -> (j < c)%nat ->
  mat_get (map2 (map2 f) a b) i j = f (mat_get a i j) (mat_get b i j).
Proof.
  intros Ha Hb Hi Hj. unfold mat_get.
  rewrite (nth_map2 (map2 f) a b i [] [] []) by (destruct Ha, Hb; lia).
  apply nth_map2.
  - rewrite (dims_row a r c i Ha Hi). exact Hj.
  - rewrite (dims_row b r c i Hb Hi). exact Hj.
Qed.

Lemma mat_get_scale (k : R) (a : mat) (r c i j : nat) :
  dims a r c -> (i < r)%nat -> (j < c)%nat ->
  mat_get (mat_scale k a) i j = k * mat_get a i j.
Proof.
  intros Ha Hi Hj. unfold mat_get, mat_scale.
  rewrite (nth_map_lt _ a i []) by (destruct Ha; lia).
  apply nth_map_lt. rewrite (dims_row a r c i Ha Hi). exact Hj.
Qed.

Lemma mat_get_identity (n i j : nat) :
  (i < n)%nat -> (j < n)%nat ->
  mat_get (np_identity n) i j = if Nat.eqb i j then 1 else 0.
Proof.
  intros Hi Hj. unfold mat_get, np_identity, unit_row.
  rewrite nth_map_seq by exact Hi. now rewrite nth_map_seq by exact Hj.
Qed.

Lemma mat_get_diag (v : vec) (i j : nat) :
  (i < length v)%nat -> (j < length v)%nat ->
  mat_get (np_diag v) i j = if Nat.eqb i j then nth i v 0 else 0.
Proof.
  intros Hi Hj. unfold mat_get, np_diag.
  rewrite nth_map_seq by exact Hi. now rewrite nth_map_seq by exact Hj.
Qed.

Section InteractionMatrix.

Import Mobility.

Variables potential omega : vec.
Hypothesis potential_length : length potential = length omega.

Let n := length omega.
Let h := interaction_h potential omega.
Let d := interaction_d h.
Let B := interaction_B potential omega.

Lemma interaction_h_dims : dims h n n.
Proof.
  split; unfold h, interaction_h, div_row_mat, add_row_col.
  - now rewrite !length_map.
  - apply Forall_map, Forall_map, Forall_forall. intros c _.
    rewrite !map2_length, length_map. unfold n. lia.
Qed.

Lemma interaction_h_entry (i j : nat) :
  (i < n)%nat -> (j < n)%nat ->
  mat_get h i j =
    nth j potential 0 * nth j omega 0 / (nth i omega 0 + nth j omega 0).
Proof.
  intros Hi Hj. unfold mat_get, h, interaction_h, div_row_mat, add_row_col.
  rewrite map_map. rewrite (nth_map_lt _ omega i 0) by exact Hi.
  rewrite (nth_map2 Rdiv _ _ j 0 0).
  - rewrite (nth_map2 Rmult _ _ j 0 0) by (unfold n in *; lia).
    rewrite (nth_map_lt _ omega j 0) by exact Hj.
    now rewrite (Rplus_comm (nth j omega 0)).
  - rewrite map2_length. unfold n in *. lia.
  - now rewrite length_map.
Qed.

Lemma interaction_d_dims : dims d n n.
Proof.
  unfold d, interaction_d.
  replace n with (length (np_sum_axis1 h)); [apply dims_diag|].
  unfold np_sum_axis1. rewrite length_map. apply interaction_h_dims.
Qed.

Lemma interaction_d_entry (i j : nat) :
  (i < n)%nat -> (j < n)%nat ->
  mat_get d i j = if Nat.eqb i j then np_sum (nth i h []) else 0.
Proof.
  intros Hi Hj. unfold d, interaction_d.
  assert (Hlen : length (np_sum_axis1 h) = n).
  { unfold np_sum_axis1. rewrite length_map. apply interaction_h_dims. }
  rewrite mat_get_diag by lia. destruct (Nat.eqb i j); [|reflexivity].
  unfold np_sum_axis1. apply nth_map_lt.
  destruct interaction_h_dims as [Hr _].
  apply Nat.lt_le_trans with n; [exact Hi|].
  apply Nat.eq_le_incl. symmetry. exact Hr.
Qed.

Lemma interaction_B_dims : dims B n n.
Proof.
  unfold B, interaction_B, mat_sub, mat_add.
  apply dims_map2; [|apply dims_identity].
  apply dims_scale, dims_map2;
    [apply interaction_h_dims | apply interaction_d_dims].
Qed.

Lemma interaction_B_entry (i j : nat) :
  (i < n)%nat -> (j < n)%nat ->
  mat_get B i j =
    2 * (mat_get h i j + mat_get d i j) - (if Nat.eqb i j then 1 else 0).
Proof.
  intros Hi Hj. unfold B, interaction_B, mat_sub, mat_add.
  rewrite (mat_get_map2 Rminus _ _ n n i j); try assumption.
  - rewrite (mat_get_scale 2 _ n n i j); try assumption.
    + rewrite (mat_get_map2 Rplus _ _ n n i j); try assumption.
      * now rewrite mat_get_identity.
      * apply interaction_h_dims.
      * apply interaction_d_dims.
    + apply dims_map2; [apply interaction_h_dims | apply interaction_d_dims].
  - apply dims_scale, dims_map2;
      [apply interaction_h_dims | apply interaction_d_dims].
  - apply dims_identity.
Qed.

Variable valences : vec.
Hypothesis valences_length : length valences = length omega.

Let r := r_columns valences potential omega.

Lemma np_dot_mv_length (m : mat) (v : vec) :
  length (np_dot_mv m v) = length m.
Proof. unfold np_dot_mv. apply length_map. Qed.

Lemma relax_columns (m : mat) (c : nat) (prev : vec) (steps : nat) :
  length m = c -> Forall (fun col => length col = c) (relax m prev steps).
Proof.
  intros Hm. revert prev. induction steps as [|s IH]; intros prev; simpl.
  - constructor.
  - constructor; [now rewrite np_dot_mv_length | apply IH].
Qed.

Lemma r_columns_dims : dims r 6 n.
Proof.
  split; [reflexivity|]. unfold r, r_columns. constructor.
  - unfold seed. rewrite map2_length, length_map. unfold n. lia.
  - apply relax_columns. apply interaction_B_dims.
Qed.

Lemma r_columns_step (k : nat) :
  (1 <= k <= 5)%nat -> nth k r [] = np_dot_mv B (nth (k - 1) r []).
Proof.
  intros Hk. unfold r, r_columns, B.
  destruct k as [|[|[|[|[|[|k]]]]]]; try lia; reflexivity.
Qed.

End InteractionMatrix.

Lemma np_dot_vm_length (n : nat) (c : vec) (m : mat) :
  Forall (fun col => length col = n) m -> length (np_dot_vm n c m) = n.
Proof.
  intros Hm. unfold np_dot_vm. revert c.
  induction Hm as [|col m Hcol Hm IH]; intros [|x c]; simpl;
    try apply repeat_length.
  rewrite map2_length, length_map, IH. lia.
Qed.

Lemma np_dot_vm_entry (n : nat) (c : vec) (m : mat) (i : nat) :
  Forall (fun col => length col = n) m -> (i < n)%nat ->
  nth i (np_dot_vm n c m) 0 = dot c (map (fun col => nth i col 0) m).
Proof.
  intros Hm Hi. revert c.
  induction Hm as [|col m Hcol Hm IH]; intros [|x c];
    try (unfold np_dot_vm, dot; simpl; apply nth_repeat).
  change (np_dot_vm n (x :: c) (col :: m))
    with (map2 Rplus (map (Rmult x) col) (np_dot_vm n c m)).
  rewrite (nth_map2 Rplus _ _ i 0 0).
  - rewrite IH. rewrite (nth_map_lt (Rmult x) col i 0) by lia.
    reflexivity.
  - rewrite length_map. lia.
  - rewrite np_dot_vm_length by exact Hm. exact Hi.
Qed.

Section InteractionFacts.

Import Mobility.

Variable K : Constants.
Variable ambient : Ion -> Ambient.

Lemma absolute_mobility_value_length (ion : Ion) :
  length (reference_mobility ion) = length (valence ion) ->
  length (absolute_mobility_value ambient ion) = length (valence ion).
Proof.
  intros H. unfold absolute_mobility_value, value_of, absolute_mobility,
    _resolve_context.
  destruct (_nightingale_function ion) as [f|].
  - destruct (negb _); simpl; now rewrite length_map.
  - simpl. now rewrite length_map.
Qed.

Lemma omega_value_length (l : list Ion) :
  Forall wf_ion l ->
  length (omega_value K ambient l) = length (valences_of l).
Proof.
  intros Hwf. unfold omega_value, valences_of. rewrite !length_map.
  induction Hwf as [|ion l [Hm _] Hwf IH]; simpl; [reflexivity|].
  rewrite !length_app, IH, map2_length, length_map.
  rewrite absolute_mobility_value_length by exact Hm. lia.
Qed.

Lemma potential_of_length (sol : Solution) (l : list Ion) :
  Forall wf_ion l ->
  length (potential_of sol l) = length (valences_of l).
Proof.
  intros Hwf. unfold potential_of. rewrite map2_length.
  assert (H : length (concentrations_of sol l) = length (valences_of l)).
  { unfold concentrations_of, valences_of. rewrite length_map.
    induction Hwf as [|ion l [_ Hf] Hwf IH]; simpl; [reflexivity|].
    now rewrite !length_app, IH, length_map, Hf. }
  lia.
Qed.

Lemma np_any_nonzero (omega : vec) :
  Forall (fun o => o <> 0) omega ->
  np_any (map (fun o => Reqb o 0) omega) = false.
Proof.
  intros H. unfold np_any. induction H as [|o omega Ho H IH]; simpl.
  - reflexivity.
  - now rewrite (Reqb_false _ _ Ho), IH.
Qed.

(** C1 (as the code has it): for an ensemble of well-formed ions with no
    zero [omega], [h[i,j] = potential[j]*omega[j] / (omega[i]+omega[j])]
    (the numerator is indexed by the column), [d] is the diagonal matrix of
    the row sums of [h], [B = 2*(h+d) - Identity], the six columns satisfy
    [r_k = B @ r_(k-1)] for [k = 1..5] with no test in between, and the
    result is the slice, at the querying ion's index range, of the dot
    products of the coefficient vector with the six columns. *)
Theorem interaction_series (sol : Solution) (ion : Ion) :
  let ions := ensemble sol ion in
  let omega := omega_value K ambient ions in
  let valences := valences_of ions in
  let potential := potential_of sol ions in
  let n := length omega in
  let h := interaction_h potential omega in
  let d := interaction_d h in
  let B := interaction_B potential omega in
  let r := r_columns valences potential omega in
  Forall wf_ion ions ->
  Forall (fun o => o <> 0) omega ->
  (forall i j, (i < n)%nat -> (j < n)%nat ->
     mat_get h i j =
       nth j potential 0 * nth j omega 0 / (nth i omega 0 + nth j omega 0) /\
     mat_get d i j = (if Nat.eqb i j then np_sum (nth i h []) else 0) /\
     mat_get B i j =
       2 * (mat_get h i j + mat_get d i j) - (if Nat.eqb i j then 1 else 0)) /\
  length r = 6%nat /\
  (forall k, (1 <= k <= 5)%nat -> nth k r [] = np_dot_mv B (nth (k - 1) r [])) /\
  exists w start_index end_index factor,
    index_range ions ion = Ok (start_index, end_index) /\
    length factor = n /\
    (forall i, (i < n)%nat ->
       nth i factor 0 = dot (onsager_fuoss K) (map (fun col => nth i col 0) r)) /\
    _interaction K ambient (Some sol) ion =
      (w, Ok (slice start_index end_index factor)).
Proof.
  intros ions omega valences potential n h d B r Hwf Hnz.
  assert (Hp : length potential = length omega).
  { unfold potential, omega.
    now rewrite potential_of_length, omega_value_length. }
  assert (Hv : length valences = length omega).
  { unfold valences, omega. now rewrite omega_value_length. }
  split; [|split; [|split]].
  - intros i j Hi Hj. split; [|split].
    + apply interaction_h_entry; assumption.
    + apply interaction_d_entry; assumption.
    + apply interaction_B_entry; assumption.
  - reflexivity.
  - intros k Hk. apply r_columns_step; assumption.
  - destruct (list_index_found ion ions (ensemble_has_ion sol ion))
      as (idx & Hidx & _).
    destruct (omega_of_value K ambient ions) as (w & Hw & _).
    pose proof (r_columns_dims potential omega Hp valences Hv) as [_ Hcols].
    exists w. eexists. eexists. exists (np_dot_vm n (onsager_fuoss K) r).
    split; [apply index_range_found; exact Hidx|]. split; [|split].
    + apply np_dot_vm_length. exact Hcols.
    + intros i Hi. apply np_dot_vm_entry; assumption.
    + unfold _interaction, lift. fold ions.
      rewrite (index_range_found _ _ _ Hidx), bind_ok. simpl fst. simpl snd.
      rewrite Hw, bind_ok. fold omega.
      rewrite (np_any_nonzero omega Hnz). simpl. now rewrite app_nil_r.
Qed.

Variable context : Ion -> option Solution.

(** The Onsager-Fuoss path returns a value for an ion embedded in a
    solution whose ensemble has no zero [omega], inside the domain of the
    square roots. *)
Lemma onsager_fuoss_returns (self : Ion) (sol : Solution) :
  context self = Some sol ->
  Forall (fun o => o <> 0) (omega_value K ambient (ensemble sol self)) ->
  0 <= amb_ionic_strength (ambient self) ->
  0 < kelvin K (amb_temperature (ambient self)) ->
  0 < dielectric (_solvent self) (amb_temperature (ambient self)) ->
  exists v, outcome (onsager_fuoss_mobility K context ambient self) = Ok v.
Proof.
  intros Hctx Hnz HI Hk Hd.
  destruct (list_index_found self _ (ensemble_has_ion sol self))
    as (idx & Hidx & _).
  destruct (omega_of_value K ambient (ensemble sol self)) as (w & Hw & _).
  unfold onsager_fuoss_mobility, _resolve_context. rewrite Hctx.
  unfold _interaction, lift.
  rewrite (index_range_found _ _ _ Hidx), bind_ok. simpl fst. simpl snd.
  rewrite Hw, bind_ok, (np_any_nonzero _ Hnz).
  simpl fst. simpl snd. unfold ret at 1. rewrite bind_ok.
  rewrite math_sqrt_ok by (apply Rlt_le, Rmult_lt_0_compat; assumption).
  rewrite bind_ret_l.
  destruct (absolute_mobility_split ambient self None) as [Hv _].
  destruct (absolute_mobility ambient self None) as [wa [a|e]];
    [|discriminate].
  rewrite bind_ok, math_sqrt_ok by exact HI. rewrite bind_ret_l.
  eexists. reflexivity.
Qed.

Lemma np_any_true (omega : vec) :
  np_any (map (fun o => Reqb o 0) omega) = true -> In 0 omega.
Proof.
  unfold np_any. intros H. apply existsb_exists in H.
  destruct H as (b & Hb & ->). apply in_map_iff in Hb.
  destruct Hb as (o & Ho & Hin). apply Reqb_spec in Ho. now subst o.
Qed.

(** How the Onsager-Fuoss path of an embedded ion can end: in the
    divergence error, in a domain error of [math.sqrt], or in a value; the
    only diagnostics are those of [absolute_mobility]. *)
Lemma onsager_fuoss_outcomes (self : Ion) (sol : Solution) :
  context self = Some sol ->
  exists w r,
    onsager_fuoss_mobility K context ambient self = (w, r) /\
    Forall (eq nightingale_warning) w /\
    ((r = Raise (RuntimeError divergence_message) /\
      In 0 (omega_value K ambient (ensemble sol self))) \/
     r = Raise ValueError \/
     exists v, r = Ok v).
Proof.
  intros Hctx.
  destruct (list_index_found self _ (ensemble_has_ion sol self))
    as (idx & Hidx & _).
  destruct (omega_of_value K ambient (ensemble sol self)) as (w & Hw & HPw).
  unfold onsager_fuoss_mobility, _resolve_context. rewrite Hctx.
  unfold _interaction, lift.
  rewrite (index_range_found _ _ _ Hidx), bind_ok. simpl fst. simpl snd.
  rewrite Hw, bind_ok.
  destruct (np_any _) eqn:Eany.
  - exists w. eexists. simpl. rewrite app_nil_r. split; [reflexivity|].
    split; [exact HPw|]. left. split; [reflexivity|].
    apply np_any_true. exact Eany.
  - simpl fst. simpl snd. unfold ret at 1. rewrite bind_ok.
    rewrite !app_nil_r.
    destruct (math_sqrt_cases
                (kelvin K (amb_temperature (ambient self)) *
                 dielectric (_solvent self) (amb_temperature (ambient self))))
      as [Hs|Hs]; rewrite Hs.
    + rewrite bind_ret_l.
      destruct (absolute_mobility_split ambient self None) as [Hv HPa].
      destruct (absolute_mobility ambient self None) as [wa [a|e]];
        [|discriminate].
      simpl in HPa. rewrite bind_ok.
      destruct (math_sqrt_cases (amb_ionic_strength (ambient self)))
        as [HI|HI]; rewrite HI; simpl; rewrite app_nil_r;
        exists (w ++ wa); eexists; (split; [reflexivity|]);
        (split; [apply Forall_app; split; assumption|]).
      * right. right. eexists. reflexivity.
      * right. left. reflexivity.
    + exists w. eexists. simpl. rewrite app_nil_r. split; [reflexivity|].
      split; [exact HPw|]. right. left. reflexivity.
Qed.

(** The fallback is taken only for an ion without an enclosing solution. *)
Lemma fallback_only_without_context (self : Ion) (I T : option R) :
  In fallback_warning
     (warnings_of (actual_mobility K context ambient self I T)) ->
  context self = None.
Proof.
  destruct (context self) as [sol|] eqn:Hctx; [|reflexivity].
  intros Hin. exfalso.
  destruct (onsager_fuoss_outcomes self sol Hctx) as (w & r & Hof & HP & Hr).
  unfold actual_mobility, except_AttributeError in Hin. rewrite Hof in Hin.
  assert (Hw : In fallback_warning w).
  { destruct Hr as [[-> _]|[->|[v ->]]]; exact Hin. }
  rewrite Forall_forall in HP. exact (warnings_differ (HP _ Hw)).
Qed.

(** C2: for an ensemble of ions with one absolute mobility per valence,
    a nonzero viscosity at their temperature and a nonzero Faraday
    constant, when a charge state of an ion of the ensemble has absolute
    mobility 0 (with a nonzero valence), [_interaction] raises the
    [RuntimeError] that carries the divergence message; [actual_mobility]
    ends in the same error for all arguments, as [onsager_fuoss_mobility]
    does, and the fallback diagnostic is not emitted.  The handler of
    [actual_mobility] runs for an [AttributeError] alone: any other
    outcome of [onsager_fuoss_mobility] is handed to the caller as it
    is. *)
Theorem interaction_divergence (self : Ion) (sol : Solution) (ion' : Ion)
    (k : nat) (zk : Z) :
  context self = Some sol ->
  Forall wf_ion (ensemble sol self) ->
  Forall (fun i => viscosity (_solvent i) (amb_temperature (ambient i)) <> 0)
         (ensemble sol self) ->
  faraday K <> 0 ->
  In ion' (ensemble sol self) ->
  nth_error (absolute_mobility_value ambient ion') k = Some 0 ->
  nth_error (valence ion') k = Some zk ->
  zk <> 0%Z ->
  outcome (_interaction K ambient (Some sol) self) =
    Raise (RuntimeError divergence_message) /\
  (forall I T : option R,
     outcome (onsager_fuoss_mobility K context ambient self) =
       Raise (RuntimeError divergence_message) /\
     outcome (actual_mobility K context ambient self I T) =
       Raise (RuntimeError divergence_message) /\
     ~ In fallback_warning
          (warnings_of (actual_mobility K context ambient self I T))) /\
  (forall (other : Ion) (I T : option R),
     outcome (onsager_fuoss_mobility K context ambient other) <>
       Raise AttributeError ->
     actual_mobility K context ambient other I T =
       onsager_fuoss_mobility K context ambient other).
Proof.
  intros Hctx _ _ _ Hin Hm Hz _.
  destruct (list_index_found self _ (ensemble_has_ion sol self))
    as (i & Hi & _).
  destruct (omega_of_value K ambient (ensemble sol self)) as (w & Hw & HP).
  assert (Hint : _interaction K ambient (Some sol) self =
                 (w, Raise (RuntimeError divergence_message))).
  { unfold _interaction, lift.
    rewrite (index_range_found _ _ _ Hi), bind_ok. simpl fst. simpl snd.
    rewrite Hw, bind_ok.
    rewrite (np_any_zero _ (omega_value_zero K ambient _ _ _ _ Hin Hm Hz)).
    simpl. now rewrite app_nil_r. }
  split; [now rewrite Hint|]. split.
  - intros I T. split; [|split].
    + unfold onsager_fuoss_mobility, _resolve_context.
      rewrite Hctx, Hint, bind_raise. reflexivity.
    + unfold actual_mobility, onsager_fuoss_mobility, _resolve_context.
      rewrite Hctx, Hint, bind_raise. reflexivity.
    + intros Hbad. apply fallback_only_without_context in Hbad. congruence.
  - intros other I T Hne. unfold actual_mobility, except_AttributeError.
    destruct (onsager_fuoss_mobility K context ambient other)
      as [w0 [v|[| | |]]] eqn:E; try reflexivity.
    exfalso. apply Hne. reflexivity.
Qed.

End InteractionFacts.

(** ** The definitions on concrete ions *)

Section ExampleFacts.

Import Mobility Examples.

Lemma conc_by_id_respects (c0 c1 c2 c3 c4 : R) (a b : Ion) :
  ion_eqb a b = true -> conc_by_id c0 c1 c2 c3 c4 a = conc_by_id c0 c1 c2 c3 c4 b.
Proof.
  unfold ion_eqb, conc_by_id. intros H. apply Nat.eqb_eq in H. now rewrite H.
Qed.

Lemma ensemble_buffer_acid :
  ensemble buffer acid = [acid; hydroxide; hydronium].
Proof.
  unfold ensemble, buffer. simpl.
  change (conc_by_id 1e-7 1e-7 0.02 0 0 absent) with 0.
  change (conc_by_id 1e-7 1e-7 0.02 0 0 acid) with 0.02.
  rewrite (Rltb_false 0 0) by lra. rewrite (Rltb_true 0 0.02) by lra.
  reflexivity.
Qed.

Lemma ensemble_sludge_acid :
  ensemble sludge acid = [stuck; acid; hydroxide; hydronium].
Proof.
  unfold ensemble, sludge. simpl.
  change (conc_by_id 1e-7 1e-7 0.02 0 0.01 stuck) with 0.01.
  change (conc_by_id 1e-7 1e-7 0.02 0 0.01 acid) with 0.02.
  rewrite (Rltb_true 0 0.01) by lra. rewrite (Rltb_true 0 0.02) by lra.
  reflexivity.
Qed.

Lemma wf_examples :
  Forall wf_ion [acid; hydroxide; hydronium].
Proof. repeat constructor. Qed.

Lemma omega_buffer_acid :
  omega_value constants room [acid; hydroxide; hydronium] =
  [1 / 1 * -42e-9 / -1 / 96485; 1 / 1 * -205e-9 / -1 / 96485;
   1 / 1 * 362e-9 / 1 / 96485].
Proof. reflexivity. Qed.

Lemma omega_buffer_nonzero :
  Forall (fun o => o <> 0) (omega_value constants room [acid; hydroxide; hydronium]).
Proof. rewrite omega_buffer_acid. repeat constructor; lra. Qed.

(** The claim's row-indexed numerator fails on the buffer: entry (0, 1) of
    [h] is not [potential[0]*omega[0] / (omega[0]+omega[1])]. *)
Lemma interaction_h_row_indexed_fails :
  let ions := ensemble buffer acid in
  let omega := omega_value constants room ions in
  let potential := potential_of buffer ions in
  mat_get (interaction_h potential omega) 0 1 <>
  nth 0 potential 0 * nth 0 omega 0 / (nth 0 omega 0 + nth 1 omega 0).
Proof.
  rewrite ensemble_buffer_acid. cbv zeta. rewrite omega_buffer_acid.
  unfold potential_of, concentrations_of, valences_of, mat_get, interaction_h,
    div_row_mat, add_row_col. simpl.
  change (conc_by_id 1e-7 1e-7 0.02 0 0 acid) with 0.02.
  change (conc_by_id 1e-7 1e-7 0.02 0 0 hydroxide) with 1e-7.
  intros H. field_simplify in H; lra.
Qed.

Lemma interaction_series_witness :
  Forall wf_ion (ensemble buffer acid) /\
  Forall (fun o => o <> 0)
         (omega_value constants room (ensemble buffer acid)) /\
  mat_get (interaction_h
             (potential_of buffer (ensemble buffer acid))
             (omega_value constants room (ensemble buffer acid))) 0 1 =
    nth 1 (potential_of buffer (ensemble buffer acid)) 0 *
    nth 1 (omega_value constants room (ensemble buffer acid)) 0 /
    (nth 0 (omega_value constants room (ensemble buffer acid)) 0 +
     nth 1 (omega_value constants room (ensemble buffer acid)) 0).
Proof.
  assert (Hwf : Forall wf_ion (ensemble buffer acid)).
  { rewrite ensemble_buffer_acid. exact wf_examples. }
  assert (Hnz : Forall (fun o => o <> 0)
                  (omega_value constants room (ensemble buffer acid))).
  { rewrite ensemble_buffer_acid. exact omega_buffer_nonzero. }
  split; [exact Hwf|]. split; [exact Hnz|].
  apply (interaction_series constants room buffer acid Hwf Hnz);
    rewrite ensemble_buffer_acid, omega_buffer_acid; simpl; lia.
Defined.

Lemma interaction_divergence_witness :
  outcome (_interaction constants room (Some sludge) acid) =
    Raise (RuntimeError divergence_message) /\
  outcome (actual_mobility constants in_sludge room acid None None) =
    Raise (RuntimeError divergence_message).
Proof.
  assert (Hin : In stuck (ensemble sludge acid)).
  { rewrite ensemble_sludge_acid. left. reflexivity. }
  assert (Hm : nth_error (absolute_mobility_value room stuck) 0 = Some 0).
  { simpl. f_equal. lra. }
  assert (Hz : (2 <> 0)%Z) by discriminate.
  assert (Hwf : Forall wf_ion (ensemble sludge acid)).
  { rewrite ensemble_sludge_acid. repeat constructor. }
  assert (Hvis : Forall (fun i => viscosity (_solvent i)
                                    (amb_temperature (room i)) <> 0)
                        (ensemble sludge acid)).
  { rewrite ensemble_sludge_acid. repeat constructor; simpl; lra. }
  assert (HF : faraday constants <> 0) by (simpl; lra).
  destruct (interaction_divergence constants room in_sludge acid sludge
              stuck 0 2 eq_refl Hwf Hvis HF Hin Hm eq_refl Hz)
    as (H1 & H2 & _).
  split; [exact H1|]. apply (H2 None None).
Defined.




Lemma actual_mobility_fallback_witness :
  in_buffer fitted = None /\
  warnings_of (actual_mobility constants in_buffer room fitted
                               (Some 0.01) (Some 25)) =
    [fallback_warning] /\
  outcome (actual_mobility constants in_buffer room fitted
                           (Some 0.01) (Some 25)) =
    outcome (robinson_stokes_mobility constants room fitted
                                      (Some 0.01) (Some 25)) /\
  exists v, outcome (actual_mobility constants in_buffer room fitted
                                     (Some 0.01) (Some 25)) = Ok v /\
            length v = 1%nat.
Proof.
  destruct (actual_mobility_fallback constants in_buffer room fitted
              (Some 0.01) (Some 25) eq_refl) as [Heq Hret].
  split; [reflexivity|]. rewrite Heq. split; [|split].
  - simpl. unfold robinson_stokes_mobility, _resolve_context. simpl.
    rewrite math_sqrt_ok by lra. rewrite bind_ret_l.
    unfold absolute_mobility, _resolve_context. simpl.
    rewrite (Rltb_true 5 25), (Rltb_true 25 95) by lra. simpl.
    rewrite math_sqrt_ok by lra. reflexivity.
  - reflexivity.
  - simpl in Hret.
    destruct Hret as (v & Hv & _ & Hlen); try lra; try reflexivity.
    exists v. split; [|exact Hlen]. rewrite <- Heq. exact Hv.
Defined.

Lemma robinson_stokes_zero_ionic_strength_witness :
  robinson_stokes_mobility constants room acid (Some 0) (Some 25) =
  absolute_mobility room acid (Some 25).
Proof.
  apply robinson_stokes_zero_ionic_strength; simpl; [reflexivity | lra | lra].
Defined.

(** At [T = min] the temperature is inside [[min, max]] and the diagnostic
    is emitted all the same. *)
Lemma nightingale_warning_at_minimum :
  ~ (In nightingale_warning
        (warnings_of (absolute_mobility room fitted (Some 5))) <->
     ~ (nightingale_min fitted <= 5 <= nightingale_max fitted)).
Proof.
  intros [H _]. apply H.
  - unfold absolute_mobility, _resolve_context. simpl.
    rewrite (Rltb_false 5 5) by lra. simpl. left. reflexivity.
  - simpl. lra.
Qed.

Lemma absolute_mobility_nightingale_witness :
  outcome (absolute_mobility room fitted (Some 50)) =
    Ok [(1 + 50 / 100) * 10.35e-11 / 1 * 1] /\
  warnings_of (absolute_mobility room fitted (Some 50)) = [] /\
  warnings_of (absolute_mobility room fitted (Some 95)) =
    [nightingale_warning].
Proof.
  destruct (absolute_mobility_nightingale room fitted (fun T => 1 + T / 100)
              50 eq_refl) as (Hv & _ & Hin).
  destruct (absolute_mobility_nightingale room fitted (fun T => 1 + T / 100)
              95 eq_refl) as (_ & Hout & _).
  split; [exact Hv|]. split.
  - apply Hin. simpl. lra.
  - apply Hout. simpl. lra.
Defined.

Lemma actual_mobility_ignores_arguments_witness :
  exists v,
    outcome (onsager_fuoss_mobility constants in_buffer room acid) = Ok v /\
    actual_mobility constants in_buffer room acid (Some 0.5) (Some 80) =
    actual_mobility constants in_buffer room acid None None.
Proof.
  assert (Hnz : Forall (fun o => o <> 0)
                  (omega_value constants room (ensemble buffer acid))).
  { rewrite ensemble_buffer_acid. exact omega_buffer_nonzero. }
  destruct (onsager_fuoss_returns constants room in_buffer acid buffer
              eq_refl Hnz) as [v Hv]; simpl; try lra.
  exists v. split; [exact Hv|].
  apply (actual_mobility_ignores_arguments constants in_buffer room acid v Hv).
Defined.

End ExampleFacts.

(** ** The pH polynomial *)

Section CalcPHFacts.

Import CalcPH.

Lemma padd_length (a b : vec) :
  length (padd a b) = Nat.max (length a) (length b).
Proof.
  revert b. induction a as [|x a IH]; intros [|y b]; simpl; try reflexivity.
  now rewrite IH.
Qed.

Lemma convolve_length (a b : vec) :
  a <> [] -> b <> [] ->
  (length (convolve a b) + 1 = length a + length b)%nat.
Proof.
  intros Ha Hb. induction a as [|x a IH]; [contradiction|].
  change (convolve (x :: a) b)
    with (padd (map (Rmult x) b) (0 :: convolve a b)).
  rewrite padd_length, length_map.
  change (length (0 :: convolve a b)) with (S (length (convolve a b))).
  change (length (x :: a)) with (S (length a)).
  assert (Hlb : (1 <= length b)%nat)
    by (destruct b; [contradiction | simpl; lia]).
  destruct a as [|x' a].
  - simpl. lia.
  - assert (IH' := IH ltac:(discriminate)).
    assert (Hla : (1 <= length (x' :: a))%nat) by (simpl; lia).
    lia.
Qed.

Lemma np_convolve_length (a b c : vec) :
  np_convolve a b = Ok c ->
  (length c + 1 = length a + length b)%nat /\ a <> [] /\ b <> [].
Proof.
  unfold np_convolve. destruct a as [|x a]; [discriminate|].
  destruct b as [|y b]; [discriminate|]. intros H.
  assert (Hc : c = convolve (x :: a) (y :: b)) by congruence.
  rewrite Hc. split; [|split]; try discriminate.
  apply convolve_length; discriminate.
Qed.

Lemma convolve_rows_length (rows : mat) (acc q : vec) :
  acc <> [] ->
  convolve_rows acc rows = Ok q ->
  (length q + length rows = length acc + list_sum (map (@length R) rows))%nat.
Proof.
  revert acc. induction rows as [|row rows IH]; intros acc Hacc; simpl.
  - intros [= <-]. lia.
  - destruct (np_convolve acc row) as [acc'|e] eqn:E; simpl; [|discriminate].
    apply np_convolve_length in E. destruct E as (Hlen & _ & Hrow).
    intros H. apply IH in H.
    + lia.
    + destruct acc'; [|discriminate]. destruct acc; [contradiction|].
      destruct row; [contradiction|]. simpl in Hlen. lia.
Qed.

Lemma assign_prefix_length (row v row' : vec) (k : nat) :
  assign_prefix row k v = Ok row' -> length row' = length row.
Proof.
  unfold assign_prefix.
  destruct (Nat.eqb (length v) (Nat.min k (length row))) eqn:E.
  - apply Nat.eqb_eq in E. intros [= <-].
    rewrite length_app, length_skipn. lia.
  - destruct (Nat.eqb (length v) 1); [|discriminate]. intros [= <-].
    rewrite length_app, repeat_length, length_skipn. lia.
Qed.

Lemma mapR_length {A B} (f : A -> result B) (l : list A) (ys : list B) :
  mapR f l = Ok ys -> length ys = length l.
Proof.
  revert ys. induction l as [|x l IH]; simpl; intros ys.
  - now intros [= <-].
  - destruct (f x); simpl; [|discriminate].
    destruct (mapR f l); simpl; [|discriminate].
    intros [= <-]. simpl. now rewrite (IH _ eq_refl).
Qed.

Lemma mapR_Forall {A B} (f : A -> result B) (P : B -> Prop) (l : list A)
    (ys : list B) :
  (forall x y, In x l -> f x = Ok y -> P y) ->
  mapR f l = Ok ys -> Forall P ys.
Proof.
  revert ys. induction l as [|x l IH]; simpl; intros ys HP.
  - intros [= <-]. constructor.
  - destruct (f x) as [y|] eqn:E; simpl; [|discriminate].
    destruct (mapR f l) as [ys'|]; simpl; [|discriminate].
    intros [= <-]. constructor.
    + apply (HP x); [now left | exact E].
    + apply IH; [|reflexivity]. intros x' y' Hin. apply HP. now right.
Qed.

Lemma update_row_lengths (i : nat) (f : vec -> vec) (m : mat) :
  (forall row, In row m -> length (f row) = length row) ->
  map (@length R) (update_row i f m) = map (@length R) m.
Proof.
  revert i. induction m as [|row m IH]; intros i Hf; [now destruct i|].
  destruct i as [|i]; simpl.
  - now rewrite Hf by now left.
  - rewrite IH; [reflexivity|]. intros r Hr. apply Hf. now right.
Qed.

Lemma np_sum_axis0_length (cols : nat) (m : mat) :
  Forall (fun row => length row = cols) m ->
  length (np_sum_axis0 cols m) = cols.
Proof.
  unfold np_sum_axis0, zeros. induction 1 as [|row m Hrow Hm IH]; simpl.
  - apply repeat_length.
  - rewrite map2_length, IH. lia.
Qed.

Lemma LMat_rows (obj : Solution) (I : R) (M : Z) (lmat : mat) :
  LMat obj I M = Ok lmat ->
  Forall (fun row => length row = Z.to_nat M) lmat.
Proof.
  unfold LMat. apply mapR_Forall. intros i row _ H.
  apply assign_prefix_length in H. rewrite H. apply repeat_length.
Qed.

(** Every row of [PMat] is one entry shorter than [Q]. *)
Lemma P_row_length (obj : Solution) (I : R) (lmat : mat) (c : nat)
    (Qrow Pi : vec) (i : nat) :
  Forall (fun row => length row = c) lmat ->
  Q_of obj I lmat = Ok [Qrow] ->
  P_row obj lmat i = Ok Pi ->
  length Qrow = (length Pi + 1)%nat.
Proof.
  intros Hrows HQ HP. unfold Q_of in HQ.
  destruct (convolve_rows [1] lmat) as [q0|] eqn:Eq0; cbn [rbind] in HQ;
    [|discriminate].
  destruct (np_convolve q0 _) as [q1|] eqn:Eq1; cbn [rbind] in HQ; [|discriminate].
  injection HQ as <-.
  apply convolve_rows_length in Eq0; [|discriminate].
  apply np_convolve_length in Eq1. destruct Eq1 as (Hq1 & _ & _).
  unfold P_row in HP. destruct (nth_error (ions obj) i); [|discriminate].
  destruct (assign_prefix _ _ _) as [tmp|] eqn:Etmp; cbn [rbind] in HP;
    [|discriminate].
  destruct (convolve_rows [1] (update_row _ _ _)) as [p0|] eqn:Ep0;
    cbn [rbind] in HP; [|discriminate].
  apply np_convolve_length in HP. destruct HP as (Hp & _ & _).
  apply convolve_rows_length in Ep0; [|discriminate].
  apply assign_prefix_length in Etmp. unfold zeros in Etmp.
  rewrite repeat_length in Etmp.
  assert (Hlens : map (@length R) (update_row i (fun row => map2 Rmult row tmp) lmat)
                  = map (@length R) lmat).
  { apply update_row_lengths. intros row Hin. rewrite map2_length, Etmp.
    rewrite Forall_forall in Hrows. rewrite (Hrows row Hin).
    destruct lmat as [|r0 lmat]; [contradiction|]. simpl.
    rewrite (Hrows r0) by now left. lia. }
  rewrite Hlens in Ep0.
  assert (Hn : length (update_row i (fun row => map2 Rmult row tmp) lmat)
               = length lmat).
  { rewrite <- (length_map (@length R)), Hlens. apply length_map. }
  rewrite Hn in Ep0. simpl in *. lia.
Qed.

Lemma Q_of_shape (obj : Solution) (I : R) (lmat Q : mat) :
  Q_of obj I lmat = Ok Q ->
  exists Qrow, Q = [Qrow] /\ (3 <= length Qrow)%nat.
Proof.
  unfold Q_of.
  destruct (convolve_rows [1] lmat) as [q0|] eqn:Eq0; cbn [rbind]; [|discriminate].
  destruct (np_convolve q0 _) as [q1|] eqn:Eq1; cbn [rbind]; [|discriminate].
  intros [= <-]. exists q1. split; [reflexivity|].
  apply np_convolve_length in Eq1. destruct Eq1 as (Hq1 & Hq0 & _).
  destruct q0; [contradiction|]. simpl in Hq1. lia.
Qed.

(** *** The construction succeeds on well-formed solutions *)

Lemma fold_max_ge (l : list Z) (a : Z) :
  (a <= fold_left Z.max l a)%Z /\
  Forall (fun x => (x <= fold_left Z.max l a)%Z) l.
Proof.
  revert a. induction l as [|x l IH]; intros a; simpl.
  - split; [lia | constructor].
  - destruct (IH (Z.max a x)) as [H1 H2]. split; [lia|].
    constructor; [lia | exact H2].
Qed.

Lemma fold_min_le (l : list Z) (a : Z) :
  (fold_left Z.min l a <= a)%Z /\
  Forall (fun x => (fold_left Z.min l a <= x)%Z) l.
Proof.
  revert a. induction l as [|x l IH]; intros a; simpl.
  - split; [lia | constructor].
  - destruct (IH (Z.min a x)) as [H1 H2]. split; [lia|].
    constructor; [lia | exact H2].
Qed.

Lemma py_max_spec (l : list Z) :
  l <> [] -> exists m, py_max l = Ok m /\ Forall (fun x => (x <= m)%Z) l.
Proof.
  destruct l as [|a l]; [contradiction|]. intros _.
  exists (fold_left Z.max l a). split; [reflexivity|].
  destruct (fold_max_ge l a). now constructor.
Qed.

Lemma py_min_spec (l : list Z) :
  l <> [] -> exists m, py_min l = Ok m /\ Forall (fun x => (m <= x)%Z) l.
Proof.
  destruct l as [|a l]; [contradiction|]. intros _.
  exists (fold_left Z.min l a). split; [reflexivity|].
  destruct (fold_min_le l a). now constructor.
Qed.

(** Distinct integers between [lo] and [hi] are at most [hi - lo + 1]. *)
Lemma NoDup_shifted (l : list Z) (lo : Z) :
  NoDup l -> Forall (fun x => (lo <= x)%Z) l ->
  NoDup (map (fun x => Z.to_nat (x - lo)) l).
Proof.
  induction 1 as [|x l Hx Hnd IH]; intros Hr; simpl; constructor.
  - intros Hin. apply in_map_iff in Hin. destruct Hin as (y & Hy & Hin).
    inversion Hr as [|? ? Hlx Hl]; subst.
    rewrite Forall_forall in Hl. specialize (Hl y Hin).
    assert (x = y) by lia. subst. contradiction.
  - apply IH. now inversion Hr.
Qed.

Lemma NoDup_range_length (l : list Z) (lo hi : Z) :
  l <> [] -> NoDup l -> Forall (fun x => (lo <= x <= hi)%Z) l ->
  (Z.of_nat (length l) <= hi - lo + 1)%Z.
Proof.
  intros Hne Hnd Hr.
  assert (Hmap : NoDup (map (fun x => Z.to_nat (x - lo)) l)).
  { apply NoDup_shifted; [exact Hnd|]. eapply Forall_impl; [|exact Hr].
    simpl. intros a Ha. lia. }
  assert (Hincl : incl (map (fun x => Z.to_nat (x - lo)) l)
                       (seq 0 (Z.to_nat (hi - lo + 1)))).
  { intros n Hn. apply in_map_iff in Hn. destruct Hn as (x & <- & Hx).
    rewrite Forall_forall in Hr. specialize (Hr x Hx).
    apply in_seq. lia. }
  pose proof (NoDup_incl_length Hmap Hincl) as Hlen.
  rewrite length_map, length_seq in Hlen.
  destruct l as [|x l]; [contradiction|].
  inversion Hr; subst. lia.
Qed.

Lemma mapR_ok {A B} (f : A -> result B) (l : list A) :
  (forall x, In x l -> exists y, f x = Ok y) ->
  exists ys, mapR f l = Ok ys.
Proof.
  induction l as [|x l IH]; intros Hf; simpl.
  - eexists. reflexivity.
  - destruct (Hf x (or_introl eq_refl)) as [y Hy]. rewrite Hy.
    destruct IH as [ys Hys]; [intros x' Hx'; apply Hf; now right|].
    rewrite Hys. eexists. reflexivity.
Qed.

Lemma convolve_rows_ok (rows : mat) (acc : vec) :
  acc <> [] -> Forall (fun row => row <> []) rows ->
  exists q, convolve_rows acc rows = Ok q.
Proof.
  intros Hacc Hrows. revert acc Hacc.
  induction Hrows as [|row rows Hrow Hrows IH]; intros acc Hacc; simpl.
  - eexists. reflexivity.
  - destruct acc as [|a acc]; [contradiction|].
    destruct row as [|b row]; [contradiction|].
    cbn [np_convolve rbind]. apply IH.
    intros Hnil. apply (f_equal (@length R)) in Hnil.
    pose proof (convolve_length (a :: acc) (b :: row)) as Hlen.
    rewrite Hnil in Hlen. simpl in Hlen.
    specialize (Hlen ltac:(discriminate) ltac:(discriminate)). lia.
Qed.

Lemma convolve_rows_nonempty (rows : mat) (acc q : vec) :
  acc <> [] -> convolve_rows acc rows = Ok q -> q <> [].
Proof.
  revert acc. induction rows as [|row rows IH]; intros acc Hacc; simpl.
  - now intros [= <-].
  - destruct (np_convolve acc row) as [acc'|e] eqn:E; cbn [rbind];
      [|discriminate].
    apply IH. apply np_convolve_length in E. destruct E as (Hlen & Ha & Hr).
    intros ->. destruct acc; [contradiction|]. destruct row; [contradiction|].
    simpl in Hlen. lia.
Qed.

Lemma assign_prefix_ok (row v : vec) (k : nat) :
  length v = k -> (k <= length row)%nat ->
  exists row', assign_prefix row k v = Ok row'.
Proof.
  intros Hv Hk. unfold assign_prefix.
  replace (Nat.min k (length row)) with k by lia.
  rewrite (proj2 (Nat.eqb_eq _ _) Hv). eexists. reflexivity.
Qed.

Lemma MaxCol_fits (obj : Solution) (I : R) :
  ions obj <> [] -> Forall (wf_charges I) (ions obj) ->
  exists M, MaxCol obj = Ok M /\
            Forall (fun i => (S (length (z i)) <= Z.to_nat M)%nat) (ions obj).
Proof.
  intros Hne Hwf. unfold MaxCol.
  set (span := fun i => rbind (py_max (z i)) (fun mx =>
                        rbind (py_min (z i)) (fun mn => Ok (mx - mn + 2)%Z))).
  assert (Hspan : forall i, In i (ions obj) ->
            exists s, span i = Ok s /\ (Z.of_nat (length (z i)) + 1 <= s)%Z).
  { intros i Hi. rewrite Forall_forall in Hwf.
    destruct (Hwf i Hi) as (Hz & Hnd & _).
    destruct (py_max_spec _ Hz) as (mx & Emx & Hmx).
    destruct (py_min_spec _ Hz) as (mn & Emn & Hmn).
    exists (mx - mn + 2)%Z. unfold span. rewrite Emx, Emn. split; [reflexivity|].
    assert (Hr : Forall (fun x => (mn <= x <= mx)%Z) (z i)).
    { rewrite Forall_forall in *. intros x Hx. split; auto. }
    pose proof (NoDup_range_length _ _ _ Hz Hnd Hr). lia. }
  destruct (mapR_ok span (ions obj)) as [spans Hspans].
  { intros i Hi. destruct (Hspan i Hi) as (s & Hs & _). now exists s. }
  rewrite Hspans. cbn [rbind].
  assert (Hlen : length spans = length (ions obj))
    by (eapply mapR_length; exact Hspans).
  destruct (py_max_spec spans) as (M & EM & HM).
  { intros ->. destruct (ions obj); [contradiction | discriminate]. }
  exists M. split; [exact EM|].
  clear Hne Hlen EM. revert spans Hspans HM.
  induction (ions obj) as [|i l IH]; intros spans Hspans HM; [constructor|].
  simpl in Hspans. destruct (Hspan i (or_introl eq_refl)) as (s & Hs & Hfit).
  rewrite Hs in Hspans. cbn [rbind] in Hspans.
  destruct (mapR span l) as [ss|] eqn:Ess; cbn [rbind] in Hspans;
    [|discriminate].
  injection Hspans as <-. inversion HM; subst. constructor; [lia|].
  apply (IH ltac:(now inversion Hwf)
            ltac:(intros j Hj; apply Hspan; now right) ss eq_refl).
  assumption.
Qed.

Lemma unpadded_returns (obj : Solution) (I : R) :
  wf_solution obj I -> exists x, unpadded obj I = Ok x.
Proof.
  intros (Hne & Hwf & Hconc).
  destruct (MaxCol_fits obj I Hne Hwf) as (M & EM & Hfit).
  unfold unpadded. rewrite EM. cbn [rbind].
  destruct (mapR_ok (fun i => assign_prefix (zeros (Z.to_nat M))
                                (length (z i) + 1) (L i I)) (ions obj))
    as [lmat EL].
  { intros i Hi. rewrite Forall_forall in Hwf, Hfit.
    destruct (Hwf i Hi) as (_ & _ & HL & _). specialize (Hfit i Hi).
    apply assign_prefix_ok; [lia|]. unfold zeros. rewrite repeat_length. lia. }
  fold (LMat obj I M) in EL. rewrite EL. cbn [rbind].
  pose proof (LMat_rows _ _ _ _ EL) as Hrows.
  assert (Hn : length lmat = length (ions obj))
    by (eapply mapR_length; exact EL).
  assert (HM : (1 <= Z.to_nat M)%nat).
  { destruct (ions obj) as [|i l]; [contradiction|].
    inversion Hfit; subst. lia. }
  assert (Hshape : shape1 lmat = Z.to_nat M).
  { destruct lmat as [|r0 lmat];
      [destruct (ions obj); [contradiction | discriminate]|].
    simpl. now inversion Hrows. }
  assert (Hnonempty : forall m : mat,
            Forall (fun row => length row = Z.to_nat M) m ->
            Forall (fun row => row <> []) m).
  { intros m Hm. eapply Forall_impl; [|exact Hm]. simpl.
    intros row Hlen ->. simpl in Hlen. lia. }
  destruct (convolve_rows_ok lmat [1] ltac:(discriminate) (Hnonempty _ Hrows))
    as [q0 Eq0].
  unfold Q_of. rewrite Eq0. cbn [rbind].
  assert (Hq0 : q0 <> [])
    by (eapply convolve_rows_nonempty; [|exact Eq0]; discriminate).
  destruct q0 as [|a q0]; [contradiction|]. cbn [np_convolve rbind].
  destruct (mapR_ok (P_row obj lmat) (seq 0 (length (concentrations obj))))
    as [PMat EP].
  { intros i Hi. apply in_seq in Hi. unfold P_row.
    destruct (nth_error (ions obj) i) as [ion|] eqn:Eion;
      [|apply nth_error_None in Eion; lia].
    apply nth_error_In in Eion. rewrite Forall_forall in Hwf, Hfit.
    destruct (Hwf ion Eion) as (_ & _ & _ & Hz0). specialize (Hfit ion Eion).
    destruct (assign_prefix_ok (zeros (shape1 lmat)) (map IZR (z0 ion))
                               (length (z0 ion))) as [tmp Etmp].
    { apply length_map. }
    { unfold zeros. rewrite repeat_length, Hshape. lia. }
    rewrite Etmp. cbn [rbind].
    pose proof (assign_prefix_length _ _ _ _ Etmp) as Htmp.
    unfold zeros in Htmp. rewrite repeat_length, Hshape in Htmp.
    assert (Hmod : Forall (fun row => length row = Z.to_nat M)
                     (update_row i (fun row => map2 Rmult row tmp) lmat)).
    { clear - Hrows Htmp. revert i.
      induction Hrows as [|r m Hr Hm IH]; intros [|i]; simpl;
        constructor; auto.
      rewrite map2_length. lia. }
    destruct (convolve_rows_ok _ [1] ltac:(discriminate) (Hnonempty _ Hmod))
      as [p0 Ep0].
    rewrite Ep0. cbn [rbind].
    assert (Hp0 : p0 <> [])
      by (eapply convolve_rows_nonempty; [|exact Ep0]; discriminate).
    destruct p0; [contradiction|]. eexists. reflexivity. }
  fold (PMat_of obj lmat) in EP. rewrite EP. cbn [rbind].
  eexists. reflexivity.
Qed.

Lemma padding_step (obj : Solution) (I : R) (P : vec) (Q : mat) (cols : nat) :
  unpadded obj I = Ok (P, Q, cols) ->
  exists Qrow,
    Q = [Qrow] /\
    (length P < length Qrow)%nat /\
    padded obj I =
      Ok (P ++ repeat 0 (length Qrow - length P),
          [Qrow ++ repeat 0 (length P - length Qrow)]) /\
    length (P ++ repeat 0 (length Qrow - length P)) =
    length (Qrow ++ repeat 0 (length P - length Qrow)).
Proof.
  intros H. unfold padded. rewrite H. simpl. unfold unpadded in H.
  destruct (MaxCol obj) as [M|]; simpl in H; [|discriminate].
  destruct (LMat obj I M) as [lmat|] eqn:EL; simpl in H; [|discriminate].
  destruct (Q_of obj I lmat) as [Q'|] eqn:EQ; simpl in H; [|discriminate].
  destruct (PMat_of obj lmat) as [PMat|] eqn:EP; simpl in H; [|discriminate].
  injection H as <- <- <-.
  destruct (Q_of_shape _ _ _ _ EQ) as (Qrow & -> & HQ3).
  exists Qrow. split; [reflexivity|].
  pose proof (LMat_rows _ _ _ _ EL) as Hrows.
  assert (HPM : Forall (fun Pi => length Qrow = (length Pi + 1)%nat) PMat).
  { unfold PMat_of in EP. revert EP. apply mapR_Forall.
    intros i Pi _ HPi. eapply P_row_length; eassumption. }
  assert (HPlen : length (P_of obj PMat) = shape1 PMat).
  { unfold P_of. apply np_sum_axis0_length.
    destruct PMat as [|P0 PMat]; [constructor|].
    inversion HPM as [|? ? H0 HPM']; subst.
    assert (Hall : Forall (fun row => length row = length P0) (P0 :: PMat)).
    { constructor; [reflexivity|]. eapply Forall_impl; [|exact HPM'].
      simpl. intros a Ha. lia. }
    change (shape1 (P0 :: PMat)) with (length P0).
    clear - Hall. revert Hall.
    generalize (P0 :: PMat) as m. generalize (length P0) as c.
    generalize (concentrations obj) as cs.
    intros cs c m Hall. revert cs.
    induction Hall as [|row m Hrow Hall IH]; intros [|x cs]; simpl;
      constructor.
    - now rewrite length_map.
    - apply IH. }
  assert (Hlt : (shape1 PMat < length Qrow)%nat).
  { destruct PMat as [|P0 PMat]; simpl; [lia|].
    inversion HPM; subst. lia. }
  split; [rewrite HPlen; exact Hlt|]. split.
  - unfold pad. simpl shape1 at 1.
    destruct (0 <? Z.of_nat (length Qrow) - Z.of_nat (shape1 PMat))%Z eqn:E;
      [|apply Z.ltb_ge in E; lia].
    rewrite HPlen.
    rewrite <- Nat2Z.inj_sub by (apply Nat.lt_le_incl; exact Hlt).
    rewrite Nat2Z.id.
    replace (shape1 PMat - length Qrow)%nat with 0%nat
      by (symmetry; apply Nat.sub_0_le, Nat.lt_le_incl; exact Hlt).
    simpl. now rewrite app_nil_r.
  - rewrite !length_app, !repeat_length. lia.
Qed.

(** C4: for every solution of well-formed ions (any number of them,
    whatever their charge-state counts) the construction reaches the
    padding step; and whenever it does, [P] is the shorter one, it is
    continued by trailing zeros, [Q] is kept, and the two have the same
    length before they are summed. *)
Theorem padding_equalises_lengths (obj : Solution) (I : R) :
  (wf_solution obj I -> exists x, unpadded obj I = Ok x) /\
  (forall (P : vec) (Q : mat) (cols : nat),
     unpadded obj I = Ok (P, Q, cols) ->
     exists Qrow,
       Q = [Qrow] /\
       (length P < length Qrow)%nat /\
       padded obj I =
         Ok (P ++ repeat 0 (length Qrow - length P),
             [Qrow ++ repeat 0 (length P - length Qrow)]) /\
       length (P ++ repeat 0 (length Qrow - length P)) =
       length (Qrow ++ repeat 0 (length P - length Qrow))).
Proof.
  split; [apply unpadded_returns | apply padding_step].
Qed.

Variable np_roots : vec -> list complex.

Lemma positive_real_spec (r : complex) :
  positive_real r = true <-> 0 < fst r /\ snd r = 0.
Proof.
  unfold positive_real. rewrite andb_true_iff, orb_true_iff, andb_true_iff.
  rewrite !Rltb_spec, !Reqb_spec. split.
  - intros [[H|[_ H]] H0]; [split; assumption | lra].
  - intros [H H0]. split; [left|]; assumption.
Qed.

(** [calc_pH] on a solution without ions stops at line 18. *)
Lemma calc_pH_no_ions (obj : Solution) (I : R) :
  ions obj = [] -> calc_pH np_roots obj I = Raise ValueError.
Proof.
  intros H. unfold calc_pH, combined_polynomial, padded, unpadded, MaxCol.
  rewrite H. reflexivity.
Qed.

(** C7 (what the code does): on pure water, with [Kw_eff(0) = 1e-14],
    [calc_pH] raises [ValueError] ([max] of an empty list) instead of
    returning 7. *)
Theorem calc_pH_pure_water_raises :
  calc_pH np_roots PHExamples.pure_water 0 = Raise ValueError.
Proof. apply calc_pH_no_ions. reflexivity. Qed.

End CalcPHFacts.

(** ** The pH polynomial on concrete solutions *)

Section PHExampleFacts.

Import CalcPH PHExamples.

Lemma Int_part_IZR (k : Z) : Int_part (IZR k) = k.
Proof. symmetry. apply Int_part_spec. lra. Qed.

Lemma trunc_IZR (k : Z) : trunc (IZR k) = IZR k.
Proof.
  unfold trunc. destruct (Rltb (IZR k) 0).
  - replace (- IZR k) with (IZR (- k)) by apply opp_IZR.
    rewrite Int_part_IZR, opp_IZR. lra.
  - now rewrite Int_part_IZR.
Qed.

Lemma trunc_int (x : R) (k : Z) : x = IZR k -> trunc x = IZR k.
Proof. intros ->. apply trunc_IZR. Qed.

Ltac trunc_eval :=
  repeat match goal with
  | |- context [trunc ?e] =>
      lazymatch e with
      | context [trunc _] => fail
      | _ => first [ rewrite (trunc_int e 0) by (simpl; lra)
                   | rewrite (trunc_int e 1) by (simpl; lra)
                   | rewrite (trunc_int e (-1)) by (simpl; lra)
                   | rewrite (trunc_int e 2) by (simpl; lra)
                   | rewrite (trunc_int e (-2)) by (simpl; lra) ]
      end
  end.

Lemma combined_polynomial_one_ion :
  combined_polynomial one_ion 0 = Ok [1; 1; -2; 0].
Proof.
  unfold combined_polynomial, padded, unpadded, MaxCol. simpl.
  unfold add_into, np_add, assign_prefix. simpl.
  trunc_eval. reflexivity.
Qed.

Ltac wf_example :=
  split; [discriminate|]; split; [|reflexivity];
  repeat (constructor; [repeat split; try discriminate;
                        repeat (constructor; [simpl; intuition discriminate|]);
                        constructor|]);
  constructor.

Lemma wf_one_ion : wf_solution one_ion 0.
Proof. wf_example. Qed.

Lemma wf_two_ions : wf_solution two_ions 0.
Proof. wf_example. Qed.

Lemma wf_three_ions : wf_solution three_ions 0.
Proof. wf_example. Qed.

(** One, two and three ions with differing charge-state counts. *)
Lemma padding_equalises_lengths_witness :
  (wf_solution one_ion 0 /\
   exists P Q, padded one_ion 0 = Ok (P, [Q]) /\ length P = length Q) /\
  (wf_solution two_ions 0 /\
   exists P Q, padded two_ions 0 = Ok (P, [Q]) /\ length P = length Q) /\
  (wf_solution three_ions 0 /\
   exists P Q, padded three_ions 0 = Ok (P, [Q]) /\ length P = length Q).
Proof.
  destruct (padding_equalises_lengths one_ion 0) as [R1 S1].
  destruct (padding_equalises_lengths two_ions 0) as [R2 S2].
  destruct (padding_equalises_lengths three_ions 0) as [R3 S3].
  destruct (R1 wf_one_ion) as [[[P1 Q1] c1] H1].
  destruct (R2 wf_two_ions) as [[[P2 Q2] c2] H2].
  destruct (R3 wf_three_ions) as [[[P3 Q3] c3] H3].
  destruct (S1 P1 Q1 c1 H1) as (Q1' & _ & _ & E1 & L1).
  destruct (S2 P2 Q2 c2 H2) as (Q2' & _ & _ & E2 & L2).
  destruct (S3 P3 Q3 c3 H3) as (Q3' & _ & _ & E3 & L3).
  split; [|split]; (split; [first [exact wf_one_ion | exact wf_two_ions
                                  | exact wf_three_ions]|]);
    do 2 eexists; (split; [eassumption | assumption]).
Defined.

Lemma trunc_small (x : R) : -1 < x < 1 -> trunc x = 0.
Proof.
  intros [Hlo Hhi]. unfold trunc. destruct (Rltb x 0) eqn:E.
  - apply Rltb_spec in E.
    replace (Int_part (- x)) with 0%Z; [lra|].
    apply Int_part_spec. simpl. lra.
  - destruct (Rlt_dec x 0) as [Hneg|Hpos].
    + rewrite (Rltb_true x 0) in E by exact Hneg. discriminate.
    + replace (Int_part x) with 0%Z; [reflexivity|].
      apply Int_part_spec. simpl. lra.
Qed.

Lemma wf_half_acid : wf_solution MorePHExamples.half_acid 0.
Proof. wf_example. Qed.

Lemma padded_half_acid :
  exists P Qrow,
    padded MorePHExamples.half_acid 0 = Ok (P, [Qrow]) /\
    map2 Rplus P Qrow = [0 + 0; - (1 / 2) + 0; 0 + 1 / 2; 0 + 1].
Proof.
  unfold padded, unpadded, MaxCol. simpl.
  do 2 eexists. split; [reflexivity|]. simpl.
  repeat (f_equal; try lra).
Qed.

Lemma combined_polynomial_half_acid :
  combined_polynomial MorePHExamples.half_acid 0 = Ok [1; 0; 0; 0].
Proof.
  unfold combined_polynomial, padded, unpadded, MaxCol. simpl.
  unfold add_into, np_add, assign_prefix. simpl.
  repeat match goal with
  | |- context [trunc ?e] =>
      lazymatch e with
      | context [trunc _] => fail
      | _ => first [ rewrite (trunc_small e) by (simpl; lra)
                   | rewrite (trunc_int e 1) by (simpl; lra) ]
      end
  end.
  reflexivity.
Qed.

(** C3 (what the code does): for one acid with [L(0) = [1/2, 1]] at
    concentration 1 and [Kw_eff(0) = 0], the combined polynomial [P + Q]
    is [x^3 + x^2/2 - x/2], whose only strictly positive root is 1/2; the
    integer array of line 68 stores it as [x^3], and [calc_pH] raises
    [IndexError] at line 80 (whenever the positive real entries of
    [numpy.roots] are roots of the polynomial it is given) instead of
    returning [-log10(1/2 * 1)]. *)
Theorem calc_pH_truncates_coefficients (np_roots : vec -> list complex) :
  wf_solution MorePHExamples.half_acid 0 /\
  (exists P Qrow,
     padded MorePHExamples.half_acid 0 = Ok (P, [Qrow]) /\
     let exact := rev (map2 Rplus P Qrow) in
     (forall x, polyval exact x = x ^ 3 + x ^ 2 / 2 - x / 2) /\
     polyval exact (1 / 2) = 0 /\
     (forall y, 0 < y -> polyval exact y = 0 -> y = 1 / 2)) /\
  combined_polynomial MorePHExamples.half_acid 0 = Ok [1; 0; 0; 0] /\
  (forall x, polyval [1; 0; 0; 0] x = x ^ 3) /\
  ((forall r, In r (np_roots [1; 0; 0; 0]) -> positive_real r = true ->
              polyval [1; 0; 0; 0] (fst r) = 0) ->
   calc_pH np_roots MorePHExamples.half_acid 0 = Raise IndexError).
Proof.
  assert (Hcube : forall x, polyval [1; 0; 0; 0] x = x ^ 3).
  { intros x. unfold polyval. simpl. ring. }
  split; [exact wf_half_acid|]. split; [|split; [|split]].
  - destruct padded_half_acid as (P & Qrow & Hpad & Hsum).
    exists P, Qrow. split; [exact Hpad|]. cbv zeta. rewrite Hsum.
    assert (Hval : forall x,
              polyval (rev [0 + 0; - (1 / 2) + 0; 0 + 1 / 2; 0 + 1]) x =
              x ^ 3 + x ^ 2 / 2 - x / 2).
    { intros x. unfold polyval. simpl. field. }
    split; [exact Hval|]. split.
    + rewrite Hval. field.
    + intros y Hy. rewrite Hval. intros H.
      assert (Hfac : y * ((y + 1) * (y - 1 / 2)) = 0) by (rewrite <- H; field).
      apply Rmult_integral in Hfac. destruct Hfac as [H0|Hfac]; [lra|].
      apply Rmult_integral in Hfac. destruct Hfac; lra.
  - exact combined_polynomial_half_acid.
  - exact Hcube.
  - intros Hroots. unfold calc_pH.
    rewrite combined_polynomial_half_acid. cbn [rbind]. cbv zeta.
    destruct (filter positive_real (np_roots [1; 0; 0; 0])) as [|r l] eqn:E;
      [reflexivity|].
    exfalso.
    assert (Hr : In r (filter positive_real (np_roots [1; 0; 0; 0]))).
    { rewrite E. now left. }
    apply filter_In in Hr. destruct Hr as [Hin Hsel].
    pose proof (Hroots r Hin Hsel) as Hzero. rewrite Hcube in Hzero.
    apply positive_real_spec in Hsel. destruct Hsel as [Hre _].
    assert (0 < fst r ^ 3) by (apply pow_lt; exact Hre). lra.
Qed.

Lemma calc_pH_truncates_coefficients_witness :
  calc_pH MorePHExamples.roots_of_cube MorePHExamples.half_acid 0 =
  Raise IndexError.
Proof.
  destruct (calc_pH_truncates_coefficients MorePHExamples.roots_of_cube)
    as (_ & _ & _ & _ & H).
  apply H. intros r Hin _. unfold MorePHExamples.roots_of_cube in Hin.
  simpl in Hin. destruct Hin as [<-|[<-|[<-|[]]]];
    unfold polyval; simpl; lra.
Defined.

End PHExampleFacts.

(** * Further properties of [mobility.py] *)

Section MoreMobilityFacts.

Import Mobility.

Variable K : Constants.
Variable context : Ion -> option Solution.
Variable ambient : Ion -> Ambient.

(** X1: with the viscosity-ratio calibration, the absolute mobility at the
    ion's reference temperature is its reference mobility, and nothing is
    logged (the viscosity at that temperature being nonzero). *)
Theorem absolute_mobility_at_reference_temperature (self : Ion) :
  _nightingale_function self = None ->
  viscosity (_solvent self) (reference_temperature self) <> 0 ->
  absolute_mobility ambient self (Some (reference_temperature self)) =
    ([], Ok (reference_mobility self)).
Proof.
  intros Hn Hv. unfold absolute_mobility, _resolve_context. rewrite Hn.
  unfold ret. apply (f_equal (fun v : vec => (@nil string, Ok v))).
  induction (reference_mobility self) as [|m l IH]; simpl; [reflexivity|].
  rewrite IH. f_equal. field. exact Hv.
Qed.

(** X2: [robinson_stokes_mobility] ends in [ValueError] when the product
    of absolute temperature and dielectric constant is negative, before
    anything is logged, and, when that product is positive and the
    viscosity is not 0, for a negative ionic strength, after the
    diagnostics of [absolute_mobility]. *)
Theorem robinson_stokes_domain_errors (self : Ion) (I T : R) :
  (kelvin K T * dielectric (_solvent self) T < 0 ->
   robinson_stokes_mobility K ambient self (Some I) (Some T) =
     ([], Raise ValueError)) /\
  (0 < kelvin K T * dielectric (_solvent self) T ->
   viscosity (_solvent self) T <> 0 ->
   I < 0 ->
   robinson_stokes_mobility K ambient self (Some I) (Some T) =
     (warnings_of (absolute_mobility ambient self (Some T)),
      Raise ValueError)).
Proof.
  unfold robinson_stokes_mobility, _resolve_context. split.
  - intros H. rewrite math_sqrt_neg by exact H. reflexivity.
  - intros Hkd _ HI. rewrite math_sqrt_ok by lra. rewrite bind_ret_l.
    destruct (absolute_mobility_split ambient self (Some T)) as [Hv _].
    destruct (absolute_mobility ambient self (Some T)) as [w [a|e]];
      [|discriminate].
    rewrite bind_ok, math_sqrt_neg by exact HI. simpl.
    now rewrite app_nil_r.
Qed.



(** *** The slice returned by [_interaction] *)

Lemma list_index_nth (x : Ion) (l : list Ion) (i : nat) :
  list_index x l = Ok i ->
  exists y, nth_error l i = Some y /\ ion_eqb y x = true.
Proof.
  revert i. induction l as [|y l IH]; intros i; simpl; [discriminate|].
  destruct (ion_eqb y x) eqn:E.
  - intros [= <-]. exists y. split; [reflexivity | exact E].
  - destruct (list_index x l) as [j|]; simpl; [|discriminate].
    intros [= <-]. apply (IH j eq_refl).
Qed.

Lemma sum_firstn_nth {A} (f : A -> nat) (l : list A) (i : nat) (y : A) :
  nth_error l i = Some y ->
  (list_sum (map f (firstn i l)) + f y <= list_sum (map f l))%nat.
Proof.
  revert l. induction i as [|i IH]; intros [|x l]; simpl; try discriminate.
  - intros [= ->]. lia.
  - intros H. specialize (IH l H). lia.
Qed.

Lemma slice_length {A} (a b : nat) (v : list A) :
  length (slice a b v) = Nat.min (b - a) (length v - a).
Proof. unfold slice. now rewrite length_firstn, length_skipn. Qed.

Lemma valences_of_length (l : list Ion) :
  length (valences_of l) = list_sum (map (fun i => length (valence i)) l).
Proof.
  unfold valences_of. now rewrite length_map, length_concat, map_map.
Qed.

(** The range and the value of [_interaction] on a well-formed ensemble. *)
Lemma interaction_returns (sol : Solution) (ion : Ion) :
  Forall wf_ion (ensemble sol ion) ->
  Forall (fun o => o <> 0) (omega_value K ambient (ensemble sol ion)) ->
  (forall a, In a (ensemble sol ion) -> ion_eqb a ion = true ->
             length (valence a) = length (valence ion)) ->
  exists w v start_index end_index,
    index_range (ensemble sol ion) ion = Ok (start_index, end_index) /\
    (start_index <= end_index)%nat /\
    (end_index <= length (omega_value K ambient (ensemble sol ion)))%nat /\
    Forall (eq nightingale_warning) w /\
    _interaction K ambient (Some sol) ion = (w, Ok v) /\
    length v = length (valence ion).
Proof.
  intros Hwf Hnz Hid.
  destruct (list_index_found ion _ (ensemble_has_ion sol ion))
    as (idx & Hidx & _).
  destruct (list_index_nth _ _ _ Hidx) as (y & Hy & Hyx).
  destruct (omega_of_value K ambient (ensemble sol ion)) as (w & Hw & HPw).
  pose proof (sum_firstn_nth (fun i => length (valence i)) _ _ _ Hy) as Hsum.
  cbv beta in Hsum.
  rewrite (Hid y (nth_error_In _ _ Hy) Hyx) in Hsum.
  rewrite <- (valences_of_length (ensemble sol ion)),
          <- (omega_value_length K ambient _ Hwf) in Hsum.
  pose proof (omega_value_length K ambient _ Hwf) as Hv.
  pose proof (potential_of_length sol _ Hwf) as Hp. rewrite <- Hv in Hp.
  pose proof (r_columns_dims _ _ Hp _ (eq_sym Hv)) as [_ Hcols].
  exists w. eexists. eexists. eexists.
  split; [apply index_range_found; exact Hidx|].
  split; [lia|]. split; [exact Hsum|]. split; [exact HPw|]. split.
  - unfold _interaction, lift.
    rewrite (index_range_found _ _ _ Hidx), bind_ok. simpl fst. simpl snd.
    rewrite Hw, bind_ok, (np_any_nonzero _ Hnz). simpl.
    rewrite app_nil_r. reflexivity.
  - rewrite slice_length, np_dot_vm_length by exact Hcols. lia.
Qed.

(** X4: on an ensemble of well-formed ions with no zero [omega],
    [_interaction] returns one factor per valence of the querying ion, read
    from an index range that lies inside the concatenated arrays (ions of
    the same identity having valence vectors of the same length). *)
Theorem interaction_one_factor_per_valence (sol : Solution) (ion : Ion) :
  Forall wf_ion (ensemble sol ion) ->
  Forall (fun o => o <> 0) (omega_value K ambient (ensemble sol ion)) ->
  (forall a, In a (ensemble sol ion) -> ion_eqb a ion = true ->
             length (valence a) = length (valence ion)) ->
  exists w v start_index end_index,
    index_range (ensemble sol ion) ion = Ok (start_index, end_index) /\
    (start_index <= end_index)%nat /\
    (end_index <= length (omega_value K ambient (ensemble sol ion)))%nat /\
    _interaction K ambient (Some sol) ion = (w, Ok v) /\
    length v = length (valence ion).
Proof.
  intros Hwf Hnz Hid.
  destruct (interaction_returns sol ion Hwf Hnz Hid)
    as (w & v & s & e & H1 & H2 & H3 & _ & H4 & H5).
  exists w, v, s, e. repeat split; assumption.
Qed.


(** X6: [actual_mobility] catches [AttributeError] only.  For an ion
    embedded in a solution (the ions of its ensemble having one mobility
    and one ionization fraction per valence, a nonzero viscosity and a
    nonzero [omega], the product of absolute temperature and dielectric
    constant being positive), a negative resolved ionic strength ends the
    Onsager-Fuoss path in [ValueError]; [actual_mobility] ends in it too,
    whatever its own arguments are, and does not fall back. *)
Theorem actual_mobility_keeps_domain_error (self : Ion) (sol : Solution)
    (I T : option R) :
  context self = Some sol ->
  Forall wf_ion (ensemble sol self) ->
  Forall (fun i => viscosity (_solvent i) (amb_temperature (ambient i)) <> 0)
         (ensemble sol self) ->
  faraday K <> 0 ->
  Forall (fun o => o <> 0) (omega_value K ambient (ensemble sol self)) ->
  0 < kelvin K (amb_temperature (ambient self)) *
      dielectric (_solvent self) (amb_temperature (ambient self)) ->
  amb_ionic_strength (ambient self) < 0 ->
  outcome (actual_mobility K context ambient self I T) = Raise ValueError /\
  ~ In fallback_warning
       (warnings_of (actual_mobility K context ambient self I T)).
Proof.
  intros Hctx _ _ _ Hnz Hkd HI.
  split; [|intros Hbad;
            apply (fallback_only_without_context K ambient context) in Hbad;
            congruence].
  destruct (list_index_found self _ (ensemble_has_ion sol self))
    as (idx & Hidx & _).
  destruct (omega_of_value K ambient (ensemble sol self)) as (w & Hw & _).
  unfold actual_mobility, onsager_fuoss_mobility, _resolve_context.
  rewrite Hctx. unfold _interaction, lift.
  rewrite (index_range_found _ _ _ Hidx), bind_ok. simpl fst. simpl snd.
  rewrite Hw, bind_ok, (np_any_nonzero _ Hnz).
  simpl fst. simpl snd. unfold ret at 1. rewrite bind_ok.
  rewrite math_sqrt_ok by lra. rewrite bind_ret_l.
  destruct (absolute_mobility_split ambient self None) as [Hv _].
  destruct (absolute_mobility ambient self None) as [wa [a|e]];
    [|discriminate].
  rewrite bind_ok, math_sqrt_neg by exact HI. reflexivity.
Qed.

(** X7: two ions of the solution with positive concentrations are
    corrected over the same ensemble: the solution's ions of positive
    concentration followed by hydroxide and hydronium. *)
Theorem ensemble_shared (sol : Solution) (a b : Ion) :
  In a (ions sol) -> In b (ions sol) ->
  0 < concentration sol a -> 0 < concentration sol b ->
  ensemble sol a = ensemble sol b /\
  ensemble sol a =
    filter (fun i => Rltb 0 (concentration sol i)) (ions sol) ++
    [_hydroxide sol; _hydronium sol].
Proof.
  assert (H : forall x, In x (ions sol) -> 0 < concentration sol x ->
    ensemble sol x =
      filter (fun i => Rltb 0 (concentration sol i)) (ions sol) ++
      [_hydroxide sol; _hydronium sol]).
  { intros x Hin Hpos. rewrite ensemble_unfold.
    assert (Hx : ion_in x (filter (fun i => Rltb 0 (concentration sol i))
                                  (ions sol) ++
                           [_hydroxide sol; _hydronium sol]) = true).
    { rewrite ion_in_app. apply orb_true_iff. left. unfold ion_in.
      apply existsb_exists. exists x. split; [|apply ion_eqb_refl].
      apply filter_In. split; [exact Hin | now apply Rltb_true]. }
    rewrite Hx. apply app_nil_r. }
  intros Ha Hb Hca Hcb. split.
  - now rewrite (H a Ha Hca), (H b Hb Hcb).
  - apply H; assumption.
Qed.

Lemma max_abs_bound (v : vec) :
  0 <= max_abs v /\ Forall (fun a => Rabs a <= max_abs v) v.
Proof.
  induction v as [|a v [IH0 IH]]; simpl.
  - split; [lra | constructor].
  - split.
    + eapply Rle_trans; [exact IH0 | apply Rmax_r].
    + constructor; [apply Rmax_l|].
      eapply Forall_impl; [|exact IH]. simpl. intros x Hx.
      eapply Rle_trans; [exact Hx | apply Rmax_r].
Qed.

Lemma weighted_sum_bound (f v : vec) (b : R) :
  0 <= b -> Forall (fun x => 0 <= x) f -> Forall (fun a => Rabs a <= b) v ->
  Rabs (np_sum (map2 Rmult f v)) <= b * np_sum f /\ 0 <= np_sum f.
Proof.
  intros Hb Hf. revert v. induction Hf as [|x f Hx Hf IH]; intros v Hv.
  - simpl. rewrite Rabs_R0. lra.
  - destruct v as [|a v]; simpl.
    + rewrite Rabs_R0. destruct (IH [] (Forall_nil _)) as [_ H0].
      split; [|lra]. apply Rmult_le_pos; lra.
    + inversion Hv as [|? ? Ha Hv']; subst.
      destruct (IH v Hv') as [H1 H0]. split; [|lra].
      eapply Rle_trans; [apply Rabs_triang|].
      rewrite Rabs_mult, (Rabs_pos_eq x Hx).
      pose proof (Rmult_le_compat_l x _ _ Hx Ha). lra.
Qed.

(** X8: when there is one ionization fraction per valence, the fractions
    are not negative and sum to at most 1, and [actual_mobility] returns
    one mobility per valence, [mobility] returns a value whose magnitude
    is at most the largest magnitude among the actual mobilities of the
    charge states, with the diagnostics of [actual_mobility]. *)
Theorem effective_mobility_bounded (self : Ion) (pH I T : R) (v : vec) :
  outcome (actual_mobility K context ambient self (Some I) (Some T)) = Ok v ->
  length v = length (valence self) ->
  length (ionization_fraction self pH (Some I) (Some T)) =
    length (valence self) ->
  Forall (fun x => 0 <= x) (ionization_fraction self pH (Some I) (Some T)) ->
  np_sum (ionization_fraction self pH (Some I) (Some T)) <= 1 ->
  exists r,
    mobility K context ambient self (Some pH) (Some I) (Some T) =
      (warnings_of (actual_mobility K context ambient self (Some I) (Some T)),
       Ok r) /\
    Rabs r <= max_abs v.
Proof.
  intros Hv _ _ Hf Hsum. unfold mobility, _resolve_context.
  destruct (actual_mobility K context ambient self (Some I) (Some T))
    as [w r]. simpl in Hv. subst r. rewrite bind_ok. simpl.
  rewrite app_nil_r. eexists. split; [reflexivity|].
  destruct (max_abs_bound v) as [H0 Hb].
  destruct (weighted_sum_bound _ v _ H0 Hf Hb) as [H1 H2].
  eapply Rle_trans; [exact H1|].
  pose proof (Rmult_le_compat_l _ _ _ H0 Hsum). lra.
Qed.

(** *** The first column of the relaxation *)

Lemma dot_seed (s : R) (p v o : vec) :
  length v = length o -> length p = length o ->
  dot p (map2 Rminus v (map (Rdiv s) o)) =
  np_sum (map2 Rmult v p) - s * np_sum (map2 Rdiv p o).
Proof.
  unfold dot. revert p v. induction o as [|y o IH]; intros [|a p] [|b v];
    simpl; intros Hv Hp; try discriminate; [lra|].
  rewrite IH by lia. unfold Rdiv. lra.
Qed.

(** X16: for an ensemble of well-formed ions, the first column of the
    relaxation is orthogonal to the array [potential]: the products of
    [potential] and [r[:, 0]] sum to 0 (when the sum of [potential/omega]
    that line 166 divides by is not 0). *)
Theorem seed_orthogonal_to_potential (sol : Solution) (ion : Ion) :
  let ions := ensemble sol ion in
  let omega := omega_value K ambient ions in
  let valences := valences_of ions in
  let potential := potential_of sol ions in
  Forall wf_ion ions ->
  np_sum (map2 Rdiv potential omega) <> 0 ->
  dot potential (nth 0 (r_columns valences potential omega) []) = 0.
Proof.
  intros ions omega valences potential Hwf Hsum.
  assert (Hv : length valences = length omega).
  { unfold valences, omega. now rewrite omega_value_length. }
  assert (Hp : length potential = length omega).
  { unfold potential, omega.
    now rewrite potential_of_length, omega_value_length. }
  simpl. unfold seed. rewrite dot_seed by assumption.
  field. exact Hsum.
Qed.

End MoreMobilityFacts.

(** * Further properties of [calc_pH.py] *)

Section MoreCalcPHFacts.

Import CalcPH.

Variable np_roots : vec -> list complex.

(** *** Line 18: the working width *)

Lemma span_cases (i : Ion) :
  (z i = [] /\
   rbind (py_max (z i)) (fun mx =>
   rbind (py_min (z i)) (fun mn => Ok (mx - mn + 2)%Z)) = Raise ValueError) \/
  (z i <> [] /\ exists s,
   rbind (py_max (z i)) (fun mx =>
   rbind (py_min (z i)) (fun mn => Ok (mx - mn + 2)%Z)) = Ok s /\ (2 <= s)%Z).
Proof.
  destruct (z i) as [|a l] eqn:E.
  - left. split; reflexivity.
  - right. split; [discriminate|]. eexists. split; [reflexivity|].
    destruct (fold_max_ge l a), (fold_min_le l a). lia.
Qed.

Lemma MaxCol_cases (obj : Solution) :
  ((ions obj = [] \/ Exists (fun i => z i = []) (ions obj)) /\
   MaxCol obj = Raise ValueError) \/
  (ions obj <> [] /\ Forall (fun i => z i <> []) (ions obj) /\
   exists M, MaxCol obj = Ok M /\ (2 <= M)%Z).
Proof.
  unfold MaxCol.
  set (span := fun i => rbind (py_max (z i)) (fun mx =>
                        rbind (py_min (z i)) (fun mn => Ok (mx - mn + 2)%Z))).
  assert (H : (Exists (fun i => z i = []) (ions obj) /\
               mapR span (ions obj) = Raise ValueError) \/
              (Forall (fun i => z i <> []) (ions obj) /\
               exists spans, mapR span (ions obj) = Ok spans /\
                 length spans = length (ions obj) /\
                 Forall (fun s => (2 <= s)%Z) spans)).
  { induction (ions obj) as [|i l IH]; simpl.
    - right. split; [constructor|]. exists []. repeat split; constructor.
    - destruct (span_cases i) as [[Hz Hs]|(Hz & s & Hs & H2)];
        fold (span i) in Hs; rewrite Hs; cbn [rbind].
      + left. split; [now left | reflexivity].
      + destruct IH as [[Hex Hm]|(Hall & spans & Hm & Hlen & Hge)];
          rewrite Hm; cbn [rbind].
        * left. split; [now right | reflexivity].
        * right. split; [now constructor|]. exists (s :: spans).
          split; [reflexivity|]. split; [simpl; now rewrite Hlen|].
          now constructor. }
  destruct H as [[Hex Hm]|(Hall & spans & Hm & Hlen & Hge)]; rewrite Hm;
    cbn [rbind].
  - left. split; [now right | reflexivity].
  - destruct spans as [|s spans].
    + left. split; [|reflexivity]. left.
      destruct (ions obj); [reflexivity | discriminate].
    + right. split; [destruct (ions obj); discriminate|].
      split; [exact Hall|]. eexists. split; [reflexivity|].
      inversion Hge; subst. destruct (fold_max_ge spans s). lia.
Qed.

(** X9: line 18 raises [ValueError] exactly when the solution has no ion
    or an ion has no charge state, and then so does [calc_pH]; it raises
    nothing else, and a width it returns is at least 2. *)
Theorem MaxCol_behaviour (obj : Solution) (I : R) :
  (MaxCol obj = Raise ValueError <->
   ions obj = [] \/ Exists (fun i => z i = []) (ions obj)) /\
  (ions obj = [] \/ Exists (fun i => z i = []) (ions obj) ->
   calc_pH np_roots obj I = Raise ValueError) /\
  (forall e, MaxCol obj = Raise e -> e = ValueError) /\
  (forall M, MaxCol obj = Ok M -> (2 <= M)%Z).
Proof.
  destruct (MaxCol_cases obj) as [[Hbad Hm]|(Hne & Hall & M & Hm & HM)].
  - split; [tauto|]. split; [|split].
    + intros _. unfold calc_pH, combined_polynomial, padded, unpadded.
      rewrite Hm. reflexivity.
    + intros e He. congruence.
    + intros M HM. congruence.
  - split; [|split; [|split]].
    + split; [congruence|]. intros [H|H]; [contradiction|].
      exfalso. apply Exists_exists in H. destruct H as (i & Hi & Hz).
      rewrite Forall_forall in Hall. exact (Hall i Hi Hz).
    + intros [H|H]; [contradiction|].
      exfalso. apply Exists_exists in H. destruct H as (i & Hi & Hz).
      rewrite Forall_forall in Hall. exact (Hall i Hi Hz).
    + intros e He. congruence.
    + intros M' HM'. congruence.
Qed.

(** *** Lines 20-34: [Q] as a product of polynomials *)

Lemma peval_padd (a b : vec) (x : R) :
  peval (padd a b) x = peval a x + peval b x.
Proof.
  revert b. induction a as [|c a IH]; intros [|d b]; simpl; try lra.
  rewrite IH. lra.
Qed.

Lemma peval_scale (c : R) (b : vec) (x : R) :
  peval (map (Rmult c) b) x = c * peval b x.
Proof. induction b as [|d b IH]; simpl; [lra|]. rewrite IH. lra. Qed.

Lemma peval_convolve (a b : vec) (x : R) :
  peval (convolve a b) x = peval a x * peval b x.
Proof.
  induction a as [|c a IH]; [simpl; lra|].
  change (convolve (c :: a) b)
    with (padd (map (Rmult c) b) (0 :: convolve a b)).
  rewrite peval_padd, peval_scale. simpl. rewrite IH. lra.
Qed.

Lemma np_convolve_eval (a b c : vec) (x : R) :
  np_convolve a b = Ok c -> peval c x = peval a x * peval b x.
Proof.
  unfold np_convolve. destruct a as [|a0 a]; [discriminate|].
  destruct b as [|b0 b]; [discriminate|]. intros H.
  assert (Hc : c = convolve (a0 :: a) (b0 :: b)) by congruence.
  rewrite Hc. apply peval_convolve.
Qed.

Lemma convolve_rows_eval (rows : mat) (acc q : vec) (x : R) :
  convolve_rows acc rows = Ok q ->
  peval q x = peval acc x * product (map (fun row => peval row x) rows).
Proof.
  revert acc. induction rows as [|row rows IH]; intros acc; simpl.
  - intros [= <-]. lra.
  - destruct (np_convolve acc row) as [acc'|] eqn:E; cbn [rbind];
      [|discriminate].
    intros H. rewrite (IH _ H), (np_convolve_eval _ _ _ x E). lra.
Qed.

Lemma peval_zeros (n : nat) (x : R) : peval (repeat 0 n) x = 0.
Proof. induction n as [|n IH]; simpl; [reflexivity|]. rewrite IH. lra. Qed.

Lemma peval_app (a b : vec) (x : R) :
  peval (a ++ b) x = peval a x + x ^ length a * peval b x.
Proof.
  induction a as [|c a IH]; simpl; [lra|]. rewrite IH. lra.
Qed.

Lemma skipn_repeat {A} (a : A) (k n : nat) :
  skipn k (repeat a n) = repeat a (n - k).
Proof.
  revert n. induction k as [|k IH]; intros [|n]; simpl; try reflexivity.
  apply IH.
Qed.

(** A row of [LMat] is the ion's [L(I)] continued by zeros. *)
Lemma LMat_row_eval (Mn : nat) (i : Ion) (I : R) (row : vec) (x : R) :
  (1 <= Mn)%nat ->
  length (L i I) = S (length (z i)) ->
  assign_prefix (zeros Mn) (length (z i) + 1) (L i I) = Ok row ->
  peval row x = peval (L i I) x.
Proof.
  intros HM HL. unfold assign_prefix, zeros. rewrite repeat_length.
  destruct (Nat.eqb (length (L i I)) (Nat.min (length (z i) + 1) Mn)) eqn:E.
  - intros [= <-]. rewrite peval_app, skipn_repeat, peval_zeros. lra.
  - apply Nat.eqb_neq in E.
    destruct (Nat.eqb (length (L i I)) 1) eqn:E1; [|discriminate].
    apply Nat.eqb_eq in E1. exfalso. lia.
Qed.

Lemma mapR_map {A B} (f : A -> result B) (g : B -> R) (h : A -> R)
    (l : list A) (ys : list B) :
  (forall a b, In a l -> f a = Ok b -> g b = h a) ->
  mapR f l = Ok ys -> map g ys = map h l.
Proof.
  revert ys. induction l as [|a l IH]; simpl; intros ys Hgh.
  - now intros [= <-].
  - destruct (f a) as [b|] eqn:E; cbn [rbind]; [|discriminate].
    destruct (mapR f l) as [bs|]; cbn [rbind]; [|discriminate].
    intros [= <-]. simpl. f_equal.
    + apply Hgh; [now left | exact E].
    + apply IH; [|reflexivity]. intros a' b' Hin. apply Hgh. now right.
Qed.

Lemma LMat_eval (obj : Solution) (I : R) (M : Z) (lmat : mat) (x : R) :
  (2 <= M)%Z ->
  Forall (fun i => length (L i I) = S (length (z i))) (ions obj) ->
  LMat obj I M = Ok lmat ->
  map (fun row => peval row x) lmat =
  map (fun i => peval (L i I) x) (ions obj).
Proof.
  intros HM HL. unfold LMat. apply mapR_map. intros i row Hi Hrow.
  rewrite Forall_forall in HL.
  apply (LMat_row_eval (Z.to_nat M) i I row x); [lia | now apply HL | exact Hrow].
Qed.

(** X11: when every [L(I)] has one entry per charge state and one more,
    the polynomial [Q] that enters the padding step is the product of the
    ions' polynomials [L(I)] and of [x^2 - Kw_eff(I)]. *)
Theorem Q_is_product (obj : Solution) (I : R) (P : vec) (Q : mat)
    (cols : nat) :
  Forall (fun i => length (L i I) = S (length (z i))) (ions obj) ->
  unpadded obj I = Ok (P, Q, cols) ->
  exists Qrow,
    Q = [Qrow] /\
    forall x, peval Qrow x =
              product (map (fun i => peval (L i I) x) (ions obj)) *
              (x * x - Kw_eff obj I).
Proof.
  intros HL H. unfold unpadded in H.
  destruct (MaxCol_cases obj) as [[_ Hm]|(_ & _ & M & Hm & HM)];
    rewrite Hm in H; cbn [rbind] in H; [discriminate|].
  destruct (LMat obj I M) as [lmat|] eqn:EL; cbn [rbind] in H;
    [|discriminate].
  destruct (Q_of obj I lmat) as [Q'|] eqn:EQ; cbn [rbind] in H;
    [|discriminate].
  destruct (PMat_of obj lmat) as [PMat|]; cbn [rbind] in H; [|discriminate].
  injection H as _ <- _. unfold Q_of in EQ.
  destruct (convolve_rows [1] lmat) as [q0|] eqn:Eq0; cbn [rbind] in EQ;
    [|discriminate].
  destruct (np_convolve q0 _) as [q1|] eqn:Eq1; cbn [rbind] in EQ;
    [|discriminate].
  injection EQ as <-. exists q1. split; [reflexivity|]. intros x.
  rewrite (np_convolve_eval _ _ _ x Eq1), (convolve_rows_eval _ _ _ x Eq0).
  rewrite (LMat_eval obj I M lmat x HM HL EL). simpl. lra.
Qed.

(** *** Lines 36-58: [P] as a weighted sum of products *)

Lemma peval_mul_zeros_l (n : nat) (l : vec) (x : R) :
  peval (map2 Rmult (repeat 0 n) l) x = 0.
Proof.
  revert l. induction n as [|n IH]; intros [|y l]; simpl; try reflexivity.
  rewrite IH. lra.
Qed.

Lemma peval_mul_zeros_r (l : vec) (n : nat) (x : R) :
  peval (map2 Rmult l (repeat 0 n)) x = 0.
Proof.
  revert n. induction l as [|y l IH]; intros [|n]; simpl; try reflexivity.
  rewrite IH. lra.
Qed.

Lemma peval_mul_padded (a b : vec) (n m : nat) (x : R) :
  peval (map2 Rmult (a ++ repeat 0 n) (b ++ repeat 0 m)) x =
  peval (map2 Rmult a b) x.
Proof.
  revert b. induction a as [|c a IH]; intros b.
  - simpl. apply peval_mul_zeros_l.
  - destruct b as [|d b].
    + simpl app at 2. change (map2 Rmult (c :: a) []) with (@nil R).
      apply peval_mul_zeros_r.
    + simpl. now rewrite IH.
Qed.

Lemma assign_prefix_shape (Mn : nat) (v row : vec) (k : nat) :
  (1 <= Mn)%nat -> length v = k ->
  assign_prefix (zeros Mn) k v = Ok row ->
  row = v ++ repeat 0 (Mn - k).
Proof.
  intros HM Hv. unfold assign_prefix, zeros. rewrite repeat_length.
  destruct (Nat.eqb (length v) (Nat.min k Mn)) eqn:E.
  - apply Nat.eqb_eq in E. intros [= <-]. rewrite skipn_repeat.
    replace (Mn - Nat.min k Mn)%nat with (Mn - k)%nat by lia. reflexivity.
  - apply Nat.eqb_neq in E.
    destruct (Nat.eqb (length v) 1) eqn:E1; [|discriminate].
    apply Nat.eqb_eq in E1. exfalso. lia.
Qed.

Lemma mapR_nth {A B} (f : A -> result B) (l : list A) (ys : list B)
    (i : nat) (a : A) :
  mapR f l = Ok ys -> nth_error l i = Some a ->
  exists b, nth_error ys i = Some b /\ f a = Ok b.
Proof.
  revert ys i. induction l as [|x l IH]; intros ys i; simpl.
  - intros _ H. destruct i; discriminate.
  - destruct (f x) as [y|] eqn:E; cbn [rbind]; [|discriminate].
    destruct (mapR f l) as [ys'|]; cbn [rbind]; [|discriminate].
    intros [= <-]. destruct i as [|i]; simpl.
    + intros [= <-]. exists y. split; [reflexivity | exact E].
    + apply (IH ys' i eq_refl).
Qed.

Lemma product_update_row (g : vec -> R) (f : vec -> vec) (m : mat) (i : nat)
    (row : vec) :
  nth_error m i = Some row ->
  product (map g (update_row i f m)) =
  product (map g (firstn i m)) * g (f row) * product (map g (skipn (S i) m)).
Proof.
  revert i. induction m as [|r m IH]; intros [|i]; simpl; try discriminate.
  - intros [= ->]. now rewrite Rmult_1_l.
  - intros H. rewrite (IH i H). now rewrite !Rmult_assoc.
Qed.

Lemma peval_plus (a b : vec) (x : R) :
  length a = length b ->
  peval (map2 Rplus a b) x = peval a x + peval b x.
Proof.
  revert b. induction a as [|c a IH]; intros [|d b] H; simpl in *;
    try discriminate; [lra|].
  rewrite IH by lia. lra.
Qed.

Lemma np_sum_axis0_eval (cols : nat) (m : mat) (x : R) :
  Forall (fun row => length row = cols) m ->
  peval (np_sum_axis0 cols m) x = np_sum (map (fun row => peval row x) m).
Proof.
  intros Hm. induction Hm as [|row m Hrow Hm IH].
  - apply peval_zeros.
  - change (np_sum_axis0 cols (row :: m))
      with (map2 Rplus row (np_sum_axis0 cols m)).
    rewrite peval_plus, IH; [reflexivity|].
    now rewrite np_sum_axis0_length.
Qed.

Lemma map2_map_seq (f : R -> R -> R) (h : nat -> R) (c : vec) (s : nat) :
  map2 f (map h (seq s (length c))) c =
  map (fun k => f (h k) (nth (k - s) c 0)) (seq s (length c)).
Proof.
  revert s. induction c as [|y c IH]; intros s; simpl; [reflexivity|].
  rewrite Nat.sub_diag. f_equal. rewrite IH. apply map_ext_in.
  intros k Hk. apply in_seq in Hk.
  replace (k - s)%nat with (S (k - S s)) by lia. reflexivity.
Qed.

Lemma np_sum_scale (x : R) (l : list nat) (t : nat -> R) :
  np_sum (map (fun k => x * t k) l) = x * np_sum (map t l).
Proof. induction l as [|k l IH]; simpl; [lra|]. rewrite IH. lra. Qed.

(** The value of the row [Pi] built for ion number [k]. *)
Lemma P_row_eval (obj : Solution) (I : R) (M : Z) (lmat : mat) (k : nat)
    (Pi : vec) (x : R) :
  (2 <= M)%Z ->
  Forall (fun i => length (L i I) = S (length (z i))) (ions obj) ->
  LMat obj I M = Ok lmat ->
  P_row obj lmat k = Ok Pi ->
  peval Pi x = x * charge_term obj I x k.
Proof.
  intros HM HL EL HP. unfold P_row in HP. unfold charge_term.
  destruct (nth_error (ions obj) k) as [ion|] eqn:Eion; [|discriminate].
  destruct (mapR_nth _ _ _ _ _ EL Eion) as (row & Hrow & Hassign).
  pose proof (LMat_rows _ _ _ _ EL) as Hrows.
  assert (Hshape : shape1 lmat = Z.to_nat M).
  { destruct lmat as [|r0 lmat]; [destruct k; discriminate|].
    simpl. now inversion Hrows. }
  rewrite Hshape in HP.
  destruct (assign_prefix _ _ _) as [tmp|] eqn:Etmp; cbn [rbind] in HP;
    [|discriminate].
  destruct (convolve_rows [1] _) as [p0|] eqn:Ep0; cbn [rbind] in HP;
    [|discriminate].
  rewrite (np_convolve_eval _ _ _ x HP), (convolve_rows_eval _ _ _ x Ep0).
  rewrite (product_update_row _ _ _ _ _ Hrow).
  pose proof (LMat_eval obj I M lmat x HM HL EL) as Hev.
  unfold vec, mat in *.
  rewrite <- !firstn_map, <- !skipn_map, Hev.
  rewrite !firstn_map, !skipn_map.
  apply assign_prefix_shape in Etmp; [|lia | apply length_map].
  rewrite Forall_forall in HL.
  pose proof (HL ion (nth_error_In _ _ Eion)) as HLi.
  apply assign_prefix_shape in Hassign; [|lia | lia].
  rewrite Hassign, Etmp, peval_mul_padded. simpl. lra.
Qed.

(** X12: under the same condition the polynomial [P] that enters the
    padding step is [x] times the sum, over the ions that have a
    concentration, of the concentration times the ion's charge-weighted
    polynomial times the polynomials [L(I)] of the other ions. *)
Theorem P_is_weighted_sum (obj : Solution) (I : R) (P : vec) (Q : mat)
    (cols : nat) :
  Forall (fun i => length (L i I) = S (length (z i))) (ions obj) ->
  unpadded obj I = Ok (P, Q, cols) ->
  forall x,
    peval P x =
    x * np_sum (map (fun k => nth k (concentrations obj) 0 *
                              charge_term obj I x k)
                    (seq 0 (length (concentrations obj)))).
Proof.
  intros HL H x. unfold unpadded in H.
  destruct (MaxCol_cases obj) as [[_ Hm]|(_ & _ & M & Hm & HM)];
    rewrite Hm in H; cbn [rbind] in H; [discriminate|].
  destruct (LMat obj I M) as [lmat|] eqn:EL; cbn [rbind] in H;
    [|discriminate].
  destruct (Q_of obj I lmat) as [Q'|] eqn:EQ; cbn [rbind] in H;
    [|discriminate].
  destruct (PMat_of obj lmat) as [PMat|] eqn:EP; cbn [rbind] in H;
    [|discriminate].
  injection H as <- _ _.
  destruct (Q_of_shape _ _ _ _ EQ) as (Qrow & -> & _).
  pose proof (LMat_rows _ _ _ _ EL) as Hrows.
  assert (HPM : Forall (fun Pi => length Qrow = (length Pi + 1)%nat) PMat).
  { unfold PMat_of in EP. revert EP. apply mapR_Forall.
    intros i Pi _ HPi. eapply P_row_length; eassumption. }
  assert (Hvals : map (fun Pi => peval Pi x) PMat =
                  map (fun k => x * charge_term obj I x k)
                      (seq 0 (length (concentrations obj)))).
  { unfold PMat_of in EP. revert EP. apply mapR_map.
    intros k Pi _ HPi. eapply P_row_eval; eassumption. }
  unfold P_of. rewrite np_sum_axis0_eval.
  - assert (Hscaled :
      map (fun row => peval row x)
          (map2 (fun row c => map (fun y => y * c) row) PMat
                (concentrations obj)) =
      map2 Rmult (map (fun Pi => peval Pi x) PMat) (concentrations obj)).
    { clear. revert PMat. induction (concentrations obj) as [|c cs IH];
        intros [|row PMat]; simpl; try reflexivity.
      rewrite IH. f_equal. clear. induction row as [|y row IH]; simpl; [lra|].
      rewrite IH. lra. }
    rewrite Hscaled, Hvals, map2_map_seq, <- np_sum_scale. f_equal.
    apply map_ext. intros k. rewrite Nat.sub_0_r. lra.
  - destruct PMat as [|P0 PMat]; [constructor|].
    inversion HPM as [|? ? H0 HPM']; subst.
    assert (Hall : Forall (fun row => length row = length P0) (P0 :: PMat)).
    { constructor; [reflexivity|]. eapply Forall_impl; [|exact HPM'].
      simpl. intros a Ha. lia. }
    change (shape1 (P0 :: PMat)) with (length P0).
    clear - Hall. revert Hall.
    generalize (P0 :: PMat) as m. generalize (length P0) as c.
    generalize (concentrations obj) as cs.
    intros cs c m Hall. revert cs.
    induction Hall as [|row m Hrow Hall IH]; intros [|y cs]; simpl;
      constructor.
    + now rewrite length_map.
    + apply IH.
Qed.

(** *** Lines 38-39: more concentrations than ions *)

Lemma construction_rows (obj : Solution) (I : R) :
  ions obj <> [] -> Forall (wf_charges I) (ions obj) ->
  exists M lmat Q,
    MaxCol obj = Ok M /\ LMat obj I M = Ok lmat /\ Q_of obj I lmat = Ok Q /\
    forall k, (k < length (ions obj))%nat ->
              exists Pi, P_row obj lmat k = Ok Pi.
Proof.
  intros Hne Hwf.
  destruct (MaxCol_fits obj I Hne Hwf) as (M & EM & Hfit).
  destruct (mapR_ok (fun i => assign_prefix (zeros (Z.to_nat M))
                                (length (z i) + 1) (L i I)) (ions obj))
    as [lmat EL].
  { intros i Hi. rewrite Forall_forall in Hwf, Hfit.
    destruct (Hwf i Hi) as (_ & _ & HL & _). specialize (Hfit i Hi).
    apply assign_prefix_ok; [lia|]. unfold zeros. rewrite repeat_length. lia. }
  fold (LMat obj I M) in EL.
  pose proof (LMat_rows _ _ _ _ EL) as Hrows.
  assert (HM : (1 <= Z.to_nat M)%nat).
  { destruct (ions obj) as [|i l]; [contradiction|].
    inversion Hfit; subst. lia. }
  assert (Hshape : shape1 lmat = Z.to_nat M).
  { destruct lmat as [|r0 lmat].
    - apply mapR_length in EL. destruct (ions obj); [contradiction|].
      discriminate.
    - simpl. now inversion Hrows. }
  assert (Hnonempty : forall m : mat,
            Forall (fun row => length row = Z.to_nat M) m ->
            Forall (fun row => row <> []) m).
  { intros m Hm. eapply Forall_impl; [|exact Hm]. simpl.
    intros row Hlen ->. simpl in Hlen. lia. }
  destruct (convolve_rows_ok lmat [1] ltac:(discriminate) (Hnonempty _ Hrows))
    as [q0 Eq0].
  assert (Hq0 : q0 <> [])
    by (eapply convolve_rows_nonempty; [|exact Eq0]; discriminate).
  exists M, lmat. eexists. split; [exact EM|]. split; [exact EL|]. split.
  { unfold Q_of. rewrite Eq0. cbn [rbind].
    destruct q0 as [|a q0]; [contradiction|]. reflexivity. }
  intros k Hk. unfold P_row.
  destruct (nth_error (ions obj) k) as [ion|] eqn:Eion;
    [|apply nth_error_None in Eion; lia].
  apply nth_error_In in Eion. rewrite Forall_forall in Hwf, Hfit.
  destruct (Hwf ion Eion) as (_ & _ & _ & Hz0). specialize (Hfit ion Eion).
  destruct (assign_prefix_ok (zeros (shape1 lmat)) (map IZR (z0 ion))
                             (length (z0 ion))) as [tmp Etmp].
  { apply length_map. }
  { unfold zeros. rewrite repeat_length, Hshape. lia. }
  rewrite Etmp. cbn [rbind].
  pose proof (assign_prefix_length _ _ _ _ Etmp) as Htmp.
  unfold zeros in Htmp. rewrite repeat_length, Hshape in Htmp.
  assert (Hmod : Forall (fun row => length row = Z.to_nat M)
                   (update_row k (fun row => map2 Rmult row tmp) lmat)).
  { clear - Hrows Htmp. revert k.
    induction Hrows as [|r m Hr Hm IH]; intros [|k]; simpl;
      constructor; auto.
    rewrite map2_length. lia. }
  destruct (convolve_rows_ok _ [1] ltac:(discriminate) (Hnonempty _ Hmod))
    as [p0 Ep0].
  rewrite Ep0. cbn [rbind].
  assert (Hp0 : p0 <> [])
    by (eapply convolve_rows_nonempty; [|exact Ep0]; discriminate).
  destruct p0; [contradiction|]. eexists. reflexivity.
Qed.

Lemma mapR_stops {A B} (f : A -> result B) (l1 l2 : list A) (x : A) (e : Exn) :
  (forall a, In a l1 -> exists b, f a = Ok b) ->
  f x = Raise e ->
  mapR f (l1 ++ x :: l2) = Raise e.
Proof.
  intros Hok Hx. induction l1 as [|a l1 IH]; simpl.
  - now rewrite Hx.
  - destruct (Hok a (or_introl eq_refl)) as [b Hb]. rewrite Hb. cbn [rbind].
    rewrite IH; [reflexivity|]. intros a' Ha'. apply Hok. now right.
Qed.

(** X10: for a solution of well-formed ions with more concentrations than
    ions, [calc_pH] raises [IndexError] (line 39, after the rows of the
    ions it has were built). *)
Theorem calc_pH_too_many_concentrations (obj : Solution) (I : R) :
  ions obj <> [] -> Forall (wf_charges I) (ions obj) ->
  (length (ions obj) < length (concentrations obj))%nat ->
  calc_pH np_roots obj I = Raise IndexError.
Proof.
  intros Hne Hwf Hlen.
  destruct (construction_rows obj I Hne Hwf) as (M & lmat & Q & EM & EL & EQ & HP).
  unfold calc_pH, combined_polynomial, padded, unpadded.
  rewrite EM. cbn [rbind]. rewrite EL. cbn [rbind]. rewrite EQ. cbn [rbind].
  unfold PMat_of.
  replace (length (concentrations obj))
    with (length (ions obj) +
          S (length (concentrations obj) - length (ions obj) - 1))%nat by lia.
  rewrite seq_app. simpl seq at 2.
  rewrite (mapR_stops _ _ _ _ IndexError); [reflexivity| |].
  - intros k Hk. apply in_seq in Hk. apply HP. lia.
  - unfold P_row. simpl Nat.add.
    assert (Hnone : nth_error (ions obj) (length (ions obj)) = None)
      by (apply nth_error_None; lia).
    now rewrite Hnone.
Qed.

(** *** Lines 60-76: the coefficients handed to [numpy.roots] *)

Lemma trunc_integer (x : R) : exists k : Z, trunc x = IZR k.
Proof.
  unfold trunc. destruct (Rltb x 0).
  - exists (- Int_part (- x))%Z. now rewrite opp_IZR.
  - eexists. reflexivity.
Qed.

Lemma assign_prefix_integer (row v row' : vec) (k : nat) :
  integer_valued row -> integer_valued v ->
  assign_prefix row k v = Ok row' -> integer_valued row'.
Proof.
  unfold integer_valued, assign_prefix. intros Hrow Hv.
  assert (Hskip : forall s, Forall (fun c => exists k : Z, c = IZR k)
                                   (skipn s row)).
  { intros s. apply Forall_forall. intros c Hc.
    rewrite Forall_forall in Hrow. apply Hrow.
    rewrite <- (firstn_skipn s row). apply in_or_app. now right. }
  destruct (Nat.eqb _ _).
  - intros [= <-]. apply Forall_app. split; [exact Hv | apply Hskip].
  - destruct (Nat.eqb _ 1); [|discriminate]. intros [= <-].
    apply Forall_app. split; [|apply Hskip].
    apply Forall_forall. intros c Hc. apply repeat_spec in Hc. subst c.
    destruct v as [|c v]; [exists 0%Z; reflexivity|].
    simpl. now inversion Hv.
Qed.

Lemma add_into_integer (poly v poly' : vec) (k : nat) :
  integer_valued poly -> add_into poly k v = Ok poly' -> integer_valued poly'.
Proof.
  intros Hpoly. unfold add_into.
  destruct (np_add (firstn k poly) v) as [s|]; cbn [rbind]; [|discriminate].
  apply assign_prefix_integer; [exact Hpoly|].
  apply Forall_map, Forall_forall. intros c _. apply trunc_integer.
Qed.

(** X13: whatever the solution, every coefficient [calc_pH] hands to
    [numpy.roots] is an integer: the sums of [P] and [Q] are stored in an
    array of integers. *)
Theorem combined_polynomial_integer (obj : Solution) (I : R) (poly : vec) :
  combined_polynomial obj I = Ok poly ->
  Forall (fun c => exists k : Z, c = IZR k) poly.
Proof.
  unfold combined_polynomial.
  destruct (padded obj I) as [[P Q]|]; cbn [rbind]; [|discriminate].
  destruct (add_into _ _ P) as [poly1|] eqn:E1; cbn [rbind]; [|discriminate].
  destruct Q as [|Qrow [|? ?]]; try discriminate.
  destruct (add_into poly1 _ Qrow) as [poly2|] eqn:E2; cbn [rbind];
    [|discriminate].
  intros [= <-]. apply Forall_rev.
  apply (add_into_integer _ _ _ _) with (2 := E2).
  apply (add_into_integer _ _ _ _) with (2 := E1).
  apply Forall_forall. intros c Hc. apply repeat_spec in Hc. subst c.
  exists 0%Z. reflexivity.
Qed.

Lemma add_into_full (poly v : vec) :
  length v = length poly ->
  add_into poly (length v + 1) v = Ok (map trunc (map2 Rplus poly v)).
Proof.
  intros Hlen. unfold add_into.
  rewrite firstn_all2 by lia. unfold np_add.
  rewrite (proj2 (Nat.eqb_eq _ _) (eq_sym Hlen)). cbn [rbind].
  unfold assign_prefix.
  replace (Nat.min (length v + 1) (length poly)) with (length poly) by lia.
  rewrite length_map, map2_length.
  replace (Nat.min (length poly) (length v)) with (length poly) by lia.
  rewrite Nat.eqb_refl, skipn_all. now rewrite app_nil_r.
Qed.

Lemma map2_zeros_l (n : nat) (v : vec) :
  length v = n -> map2 Rplus (zeros n) v = map (Rplus 0) v.
Proof.
  revert n. induction v as [|c v IH]; intros [|n] H; simpl in *;
    try discriminate; [reflexivity|].
  unfold zeros in IH. rewrite IH by lia. reflexivity.
Qed.

Lemma poly_entries (P Q : vec) :
  map trunc (map2 Rplus (map trunc (map (Rplus 0) P)) Q) =
  map2 (fun p q => trunc (trunc (0 + p) + q)) P Q.
Proof.
  revert Q. induction P as [|p P IH]; intros [|q Q]; simpl; try reflexivity.
  now rewrite IH.
Qed.

(** X14: for a well-formed solution [calc_pH] reaches [numpy.roots] with
    [len(ions) * (MaxCol - 1) + 3] coefficients. *)
Theorem combined_polynomial_coefficients (obj : Solution) (I : R) :
  wf_solution obj I ->
  exists M poly,
    MaxCol obj = Ok M /\
    combined_polynomial obj I = Ok poly /\
    length poly = (length (ions obj) * (Z.to_nat M - 1) + 3)%nat.
Proof.
  intros Hwf.
  destruct (unpadded_returns obj I Hwf) as [[[P Q] cols] Hun].
  destruct (padding_step obj I P Q cols Hun) as (Qrow & -> & Hlt & Hpad & Hlen).
  assert (HQ0 : Qrow ++ repeat 0 (length P - length Qrow) = Qrow).
  { replace (length P - length Qrow)%nat with 0%nat by lia.
    apply app_nil_r. }
  rewrite HQ0 in Hpad, Hlen.
  pose proof Hun as Hun'. unfold unpadded in Hun'.
  destruct (MaxCol_cases obj) as [[_ Hm]|(_ & _ & M & Hm & HM)];
    rewrite Hm in Hun'; cbn [rbind] in Hun'; [discriminate|].
  destruct (LMat obj I M) as [lmat|] eqn:EL; cbn [rbind] in Hun';
    [|discriminate].
  destruct (Q_of obj I lmat) as [Q'|] eqn:EQ; cbn [rbind] in Hun';
    [|discriminate].
  destruct (PMat_of obj lmat) as [PMat|]; cbn [rbind] in Hun'; [|discriminate].
  injection Hun' as _ HQ _. subst Q'.
  assert (HQlen : length Qrow = (length (ions obj) * (Z.to_nat M - 1) + 3)%nat).
  { unfold Q_of in EQ.
    destruct (convolve_rows [1] lmat) as [q0|] eqn:Eq0; cbn [rbind] in EQ;
      [|discriminate].
    destruct (np_convolve q0 _) as [q1|] eqn:Eq1; cbn [rbind] in EQ;
      [|discriminate].
    injection EQ as <-.
    apply convolve_rows_length in Eq0; [|discriminate].
    apply np_convolve_length in Eq1. destruct Eq1 as (Hq1 & _ & _).
    pose proof (LMat_rows _ _ _ _ EL) as Hrows.
    assert (Hsum : list_sum (map (@length R) lmat) =
                   (length lmat * Z.to_nat M)%nat).
    { clear - Hrows. induction Hrows as [|r m Hr Hm IH]; simpl; [reflexivity|].
      rewrite IH, Hr. reflexivity. }
    assert (Hn : length lmat = length (ions obj))
      by (eapply mapR_length; exact EL).
    rewrite Hsum, Hn in Eq0. simpl in Eq0, Hq1.
    assert (1 <= Z.to_nat M)%nat by lia. nia. }
  set (P' := P ++ repeat 0 (length Qrow - length P)) in *.
  exists M, (rev (map2 (fun p q => trunc (trunc (0 + p) + q)) P' Qrow)).
  split; [exact Hm|].
  split; [|rewrite length_rev, map2_length, Hlen, Nat.min_id; exact HQlen].
  unfold combined_polynomial. rewrite Hpad. cbn [rbind].
  replace (Nat.max (length P') (length [Qrow])) with (length P')
    by (simpl; lia).
  rewrite add_into_full by (unfold zeros; now rewrite repeat_length).
  cbn [rbind]. rewrite map2_zeros_l by reflexivity.
  rewrite add_into_full
    by (rewrite !length_map; symmetry; exact Hlen).
  cbn [rbind]. now rewrite poly_entries.
Qed.

(** *** Lines 79-83: the choice of the root *)

Lemma filter_first {A} (f : A -> bool) (pre post : list A) (x : A) :
  Forall (fun a => f a = false) pre -> f x = true ->
  exists rest, filter f (pre ++ x :: post) = x :: rest.
Proof.
  intros Hpre Hx. induction Hpre as [|a pre Ha Hpre IH]; simpl.
  - rewrite Hx. eexists. reflexivity.
  - rewrite Ha. exact IH.
Qed.

(** X15: given the coefficients, [calc_pH] takes the first entry of
    [numpy.roots] that is real and positive, whatever comes after it; it
    raises [IndexError] when there is none, and [ValueError] when the
    activity coefficient is not positive. *)
Theorem calc_pH_first_positive_root (obj : Solution) (I : R) (poly : vec) :
  combined_polynomial obj I = Ok poly ->
  (filter positive_real (np_roots poly) = [] ->
   calc_pH np_roots obj I = Raise IndexError) /\
  (forall pre post c gamma rest,
     np_roots poly = pre ++ (c, 0) :: post ->
     Forall (fun r => positive_real r = false) pre ->
     0 < c ->
     H_activity_coefficient obj I [1%Z] = gamma :: rest ->
     (0 < gamma -> calc_pH np_roots obj I = Ok (- log10 (c * gamma))) /\
     (gamma <= 0 -> calc_pH np_roots obj I = Raise ValueError)).
Proof.
  intros Hpoly. unfold calc_pH. rewrite Hpoly. cbn [rbind]. cbv zeta. split.
  - intros ->. reflexivity.
  - intros pre post c gamma rest Hroots Hpre Hc Hgamma.
    destruct (filter_first positive_real pre post (c, 0) Hpre) as [l Hl].
    { apply positive_real_spec. simpl. split; [exact Hc | reflexivity]. }
    unfold complex in *. rewrite Hroots, Hl, Hgamma. simpl fst. unfold math_log10. split.
    + intros Hg. rewrite Rltb_true by (apply Rmult_lt_0_compat; assumption).
      reflexivity.
    + intros Hg. rewrite Rltb_false; [reflexivity|].
      intros Hpos. assert (c * gamma <= 0); [|lra].
      rewrite <- (Rmult_0_r c). apply Rmult_le_compat_l; lra.
Qed.

End MoreCalcPHFacts.

(** ** The further properties on concrete ions and solutions *)

Section MoreMobilityExamples.

Import Mobility Examples MoreExamples.

Lemma absolute_mobility_at_reference_temperature_witness :
  absolute_mobility room acid (Some 25) = ([], Ok [-42e-9]).
Proof.
  apply (absolute_mobility_at_reference_temperature room acid);
    [reflexivity | simpl; lra].
Defined.

Lemma robinson_stokes_domain_errors_witness :
  robinson_stokes_mobility constants room fitted (Some 0.01) (Some (-300)) =
    ([], Raise ValueError) /\
  robinson_stokes_mobility constants room fitted (Some (-1)) (Some 25) =
    ([], Raise ValueError) /\
  robinson_stokes_mobility constants room fitted (Some (-1)) (Some 99) =
    ([nightingale_warning], Raise ValueError).
Proof.
  split; [|split].
  - apply (robinson_stokes_domain_errors constants room fitted 0.01 (-300)).
    simpl. lra.
  - rewrite (proj2 (robinson_stokes_domain_errors constants room fitted
                      (-1) 25)); simpl; try lra.
    unfold absolute_mobility, _resolve_context. simpl.
    rewrite (Rltb_true 5 25), (Rltb_true 25 95) by lra. reflexivity.
  - rewrite (proj2 (robinson_stokes_domain_errors constants room fitted
                      (-1) 99)); simpl; try lra.
    unfold absolute_mobility, _resolve_context. simpl.
    rewrite (Rltb_true 5 99), (Rltb_false 99 95) by lra. reflexivity.
Defined.


Lemma same_identity_same_length :
  forall a, In a (ensemble buffer acid) -> ion_eqb a acid = true ->
            length (valence a) = length (valence acid).
Proof.
  rewrite ensemble_buffer_acid. intros a [<-|[<-|[<-|[]]]] _; reflexivity.
Qed.

Lemma interaction_one_factor_per_valence_witness :
  exists w v,
    _interaction constants room (Some buffer) acid = (w, Ok v) /\
    length v = 1%nat.
Proof.
  assert (Hwf : Forall wf_ion (ensemble buffer acid)).
  { rewrite ensemble_buffer_acid. exact wf_examples. }
  assert (Hnz : Forall (fun o => o <> 0)
                  (omega_value constants room (ensemble buffer acid))).
  { rewrite ensemble_buffer_acid. exact omega_buffer_nonzero. }
  destruct (interaction_one_factor_per_valence constants room buffer acid
              Hwf Hnz same_identity_same_length)
    as (w & v & s & e & _ & _ & _ & Hint & Hlen).
  exists w, v. split; [exact Hint | exact Hlen].
Defined.


Lemma omega_buffer_nonzero_odd :
  Forall (fun o => o <> 0)
         (omega_value constants odd_room (ensemble buffer acid)).
Proof.
  rewrite ensemble_buffer_acid.
  change (omega_value constants odd_room [acid; hydroxide; hydronium])
    with [1 / 1 * -42e-9 / -1 / 96485; 1 / 1 * -205e-9 / -1 / 96485;
          1 / 1 * 362e-9 / 1 / 96485].
  repeat constructor; lra.
Qed.

Lemma actual_mobility_keeps_domain_error_witness :
  outcome (actual_mobility constants in_buffer odd_room acid
                           (Some 0.01) (Some 25)) = Raise ValueError.
Proof.
  assert (Hwf : Forall wf_ion (ensemble buffer acid)).
  { rewrite ensemble_buffer_acid. exact wf_examples. }
  assert (Hvis : Forall (fun i => viscosity (_solvent i)
                                    (amb_temperature (odd_room i)) <> 0)
                        (ensemble buffer acid)).
  { rewrite ensemble_buffer_acid. repeat constructor; simpl; lra. }
  assert (HF : faraday constants <> 0) by (simpl; lra).
  apply (actual_mobility_keeps_domain_error constants in_buffer odd_room
           acid buffer (Some 0.01) (Some 25) eq_refl Hwf Hvis HF
           omega_buffer_nonzero_odd);
    simpl; lra.
Defined.

Lemma ensemble_shared_witness :
  ensemble sludge stuck = ensemble sludge acid.
Proof.
  apply (ensemble_shared sludge stuck acid).
  - left. reflexivity.
  - right. left. reflexivity.
  - change (concentration sludge stuck) with 0.01. lra.
  - change (concentration sludge acid) with 0.02. lra.
Defined.

Lemma effective_mobility_bounded_witness :
  exists v r,
    outcome (actual_mobility constants in_buffer room fitted
                             (Some 0.01) (Some 25)) = Ok v /\
    outcome (mobility constants in_buffer room fitted
                      (Some 7) (Some 0.01) (Some 25)) = Ok r /\
    Rabs r <= max_abs v.
Proof.
  assert (Hv : exists v,
             outcome (actual_mobility constants in_buffer room fitted
                                      (Some 0.01) (Some 25)) = Ok v /\
             length v = length (valence fitted)).
  { unfold actual_mobility, except_AttributeError.
    rewrite (onsager_fuoss_no_context constants in_buffer room fitted eq_refl).
    unfold warn. rewrite bind_ok. simpl snd.
    pose proof (robinson_stokes_returns constants room fitted
                  (Some 0.01) (Some 25)) as H. simpl in H.
    apply H; [reflexivity | lra | lra | lra]. }
  destruct Hv as (v & Hv & Hlen).
  destruct (effective_mobility_bounded constants in_buffer room fitted
              7 0.01 25 v Hv Hlen) as (r & Hr & Hb).
  - reflexivity.
  - simpl. repeat constructor. lra.
  - simpl. lra.
  - exists v, r. split; [exact Hv|]. split; [|exact Hb].
    unfold outcome. now rewrite Hr.
Defined.

Lemma seed_orthogonal_to_potential_witness :
  dot (potential_of buffer (ensemble buffer acid))
      (nth 0 (r_columns (valences_of (ensemble buffer acid))
                        (potential_of buffer (ensemble buffer acid))
                        (omega_value constants room (ensemble buffer acid)))
           []) = 0.
Proof.
  apply (seed_orthogonal_to_potential constants room buffer acid).
  - rewrite ensemble_buffer_acid. exact wf_examples.
  - rewrite ensemble_buffer_acid, omega_buffer_acid.
    unfold potential_of, concentrations_of, valences_of. simpl.
    change (conc_by_id 1e-7 1e-7 0.02 0 0 acid) with 0.02.
    change (conc_by_id 1e-7 1e-7 0.02 0 0 hydroxide) with 1e-7.
    change (conc_by_id 1e-7 1e-7 0.02 0 0 hydronium) with 1e-7.
    intros H. field_simplify in H; lra.
Defined.

End MoreMobilityExamples.

Section MorePHExampleFacts.

Import CalcPH PHExamples MorePHExamples.

Lemma calc_pH_too_many_concentrations_witness :
  calc_pH roots_of_one_ion overfull 0 = Raise IndexError.
Proof.
  apply calc_pH_too_many_concentrations.
  - discriminate.
  - repeat constructor; try discriminate; simpl; intuition discriminate.
  - simpl. lia.
Defined.

Lemma L_shapes_two_ions :
  Forall (fun i => length (L i 0) = S (length (z i))) (ions two_ions).
Proof. repeat constructor. Qed.

Lemma Q_is_product_witness :
  exists P Qrow cols,
    unpadded two_ions 0 = Ok (P, [Qrow], cols) /\
    peval Qrow 2 =
      (peval [1; 1] 2 * (peval [1; 2; 1] 2 * 1)) * (2 * 2 - 1e-14).
Proof.
  destruct (unpadded_returns two_ions 0 wf_two_ions) as [[[P Q] cols] H].
  destruct (Q_is_product two_ions 0 P Q cols L_shapes_two_ions H)
    as (Qrow & -> & HQ).
  exists P, Qrow, cols. split; [exact H|]. apply (HQ 2).
Defined.

Lemma P_is_weighted_sum_witness :
  exists P Q cols,
    unpadded two_ions 0 = Ok (P, Q, cols) /\
    peval P 0 = 0.
Proof.
  destruct (unpadded_returns two_ions 0 wf_two_ions) as [[[P Q] cols] H].
  exists P, Q, cols. split; [exact H|].
  rewrite (P_is_weighted_sum two_ions 0 P Q cols L_shapes_two_ions H 0).
  apply Rmult_0_l.
Defined.

Lemma combined_polynomial_integer_witness :
  Forall (fun c => exists k : Z, c = IZR k) [1; 1; -2; 0].
Proof.
  apply (combined_polynomial_integer one_ion 0).
  exact combined_polynomial_one_ion.
Defined.

Lemma combined_polynomial_coefficients_witness :
  exists poly,
    combined_polynomial one_ion 0 = Ok poly /\ length poly = 4%nat.
Proof.
  destruct (combined_polynomial_coefficients one_ion 0 wf_one_ion)
    as (M & poly & HM & Hpoly & Hlen).
  exists poly. split; [exact Hpoly|]. rewrite Hlen.
  unfold MaxCol in HM. simpl in HM. injection HM as <-. reflexivity.
Defined.

Lemma calc_pH_first_positive_root_witness :
  calc_pH roots_of_one_ion one_ion 0 = Ok (- log10 (1 * 1)).
Proof.
  destruct (calc_pH_first_positive_root roots_of_one_ion one_ion 0
              [1; 1; -2; 0] combined_polynomial_one_ion) as [_ H].
  destruct (H [(-2, 0); (0, 0)] [] 1 1 []) as [Hok _].
  - reflexivity.
  - repeat constructor.
    + destruct (positive_real (-2, 0)) eqn:E; [|reflexivity].
      apply positive_real_spec in E. simpl in E. lra.
    + destruct (positive_real (0, 0)) eqn:E; [|reflexivity].
      apply positive_real_spec in E. simpl in E. lra.
  - lra.
  - reflexivity.
  - apply Hok. lra.
Defined.

End MorePHExampleFacts.
